(** * A shallow embedding of the RAT24F lexer (lexer.py)

    The Python module is a hand-written scanner: a driving [while] loop
    in [lexer] that looks at the character under the cursor and hands
    over to [handle_comment], [get_identifier], [get_number] or
    [get_operator].  Every function below is transcribed from the
    function of the same name in lexer.py; logging calls are dropped
    (they write to a log file and never influence the result).

    Data model.  A Python [str] is modelled as a [string] whose
    characters are the code points 0..255, with Python's own
    classification ([str.isspace], [str.isalpha], [str.isdigit],
    [str.isalnum]) on that range.  Positions are natural numbers.
    Exceptions are values of [exn]; a computation that may raise has
    type [result A]. *)

From Stdlib Require Import Bool Arith Lia List NArith.
From Stdlib Require Import Ascii String.
Import ListNotations.

Open Scope string_scope.

(** ** Python exceptions and the error monad *)

Inductive exn : Type :=
| ValueError (msg : string)
| IndexError.

Inductive result (A : Type) : Type :=
| Ok (a : A)
| Raise (e : exn).

Arguments Ok {A} a.
Arguments Raise {A} e.

Definition bind {A B : Type} (c : result A) (k : A -> result B) : result B :=
  match c with
  | Ok a => k a
  | Raise e => Raise e
  end.

Notation "x <- c ;; k" := (bind c (fun x => k))
  (at level 61, c at next level, right associativity).

(** ** Python string primitives *)

Definition code (c : ascii) : N := N_of_ascii c.

Definition between (lo hi n : N) : bool := ((lo <=? n) && (n <=? hi))%N.

(** [str.isspace] on code points 0..255: TAB..CR, FS..US, space,
    NEL (0x85) and NBSP (0xA0). *)
Definition isspace (c : ascii) : bool :=
  let n := code c in
  between 9 13 n || between 28 32 n || (n =? 133)%N || (n =? 160)%N.

(** [str.isalpha] on code points 0..255: the ASCII letters and the
    Latin-1 letters (0xD7 and 0xF7 are the multiplication and division
    signs and are left out). *)
Definition isalpha (c : ascii) : bool :=
  let n := code c in
  between 65 90 n || between 97 122 n
  || (n =? 170)%N || (n =? 181)%N || (n =? 186)%N
  || between 192 214 n || between 216 246 n || between 248 255 n.

(** [str.isdigit] on code points 0..255: 0..9 and the superscript
    digits (0xB2, 0xB3, 0xB9). *)
Definition isdigit (c : ascii) : bool :=
  let n := code c in
  between 48 57 n || between 178 179 n || (n =? 185)%N.

(** [str.isalnum]: alphabetic, digit, or numeric (the vulgar fractions
    0xBC..0xBE are numeric without being digits). *)
Definition isalnum (c : ascii) : bool :=
  let n := code c in
  isalpha c || isdigit c || between 188 190 n.

(** [len(s)] is [String.length s]; [s[i:j]] for [0 <= i <= j] is
    [substring i (j - i) s], which clamps at the end of [s] as Python's
    slices do. *)

(** [s[i]]: raises [IndexError] when [i] is out of range. *)
Definition getitem (s : string) (i : nat) : result ascii :=
  match get i s with
  | Some c => Ok c
  | None => Raise IndexError
  end.

(** A Python character is a string of length one. *)
Definition str1 (c : ascii) : string := String c EmptyString.

(** [x in l] for a list of strings. *)
Fixpoint str_in (x : string) (l : list string) : bool :=
  match l with
  | [] => false
  | y :: l' => (x =? y) || str_in x l'
  end.

(** [s.find(sub, start)]: the lowest index at or after [start] where
    [sub] occurs, [None] standing for Python's [-1]. *)
Definition find (s sub : string) (start : nat) : option nat :=
  index start sub s.

(** ** The static tables *)

Definition keywords : list string :=
  ["integer"; "if"; "else"; "fi"; "while"; "return"; "get"; "put"].

Definition operators : list string :=
  ["+"; "-"; "*"; "/"; "="; "<"; ">"; "<="; ">="; "=="; "!="].

Definition separators : list string :=
  ["("; ")"; "{"; "}"; ","; ";"].

(** ** The helper functions *)

Definition is_letter (char : ascii) : bool := isalpha char.

Definition is_digit (char : ascii) : bool := isdigit char.

Definition handle_comment (source_code : string) (position : nat) : result nat :=
  match find source_code "*]" position with
  | None => Raise (ValueError "Unterminated comment block")
  | Some end_pos => Ok (end_pos + 2)
  end.

(** The loop shared by [get_identifier] and [get_number]:

      while position < len(source_code) and p(source_code[position]):
          lexeme += source_code[position]
          position += 1

    It returns the final [position] and [lexeme].  Every iteration
    moves [position] one step towards [len(source_code)], so
    [len(source_code) - position] iterations are always enough; the
    callers pass that much fuel. *)
Fixpoint while_chars (p : ascii -> bool) (fuel : nat) (source_code : string)
    (position : nat) (lexeme : string) : nat * string :=
  match fuel with
  | 0 => (position, lexeme)
  | S fuel' =>
      match get position source_code with
      | Some c =>
          if p c
          then while_chars p fuel' source_code (position + 1) (lexeme ++ str1 c)
          else (position, lexeme)
      | None => (position, lexeme)
      end
  end.

Definition ident_char (c : ascii) : bool := isalnum c || (c =? "_")%char.

Definition get_identifier (source_code : string) (position : nat) : string :=
  snd (while_chars ident_char (length source_code - position)
         source_code position "").

Definition get_number (source_code : string) (position : nat) : string * bool :=
  let '(position, lexeme) :=
    while_chars isdigit (length source_code - position)
      source_code position "" in
  match get position source_code with
  | Some "."%char =>
      let '(_, lexeme) :=
        while_chars isdigit (length source_code - (position + 1))
          source_code (position + 1) (lexeme ++ ".") in
      (lexeme, true)
  | _ => (lexeme, false)
  end.

Definition get_operator (source_code : string) (position : nat) : result string :=
  if str_in (substring position 2 source_code) operators
  then Ok (substring position 2 source_code)
  else
    c <- getitem source_code position ;;
    if str_in (str1 c) operators then Ok (str1 c) else Ok "".

(** ** The main loop *)

Definition token : Type := string * string.

Definition state : Type := nat * list token.

(** [any(char == op[0] for op in operators)] *)
Definition starts_operator (char : ascii) : bool :=
  existsb (fun op => match op with
                     | String c0 _ => (char =? c0)%char
                     | EmptyString => false
                     end) operators.

(** One pass through the body of [while position < len(source_code)].
    The last [else] is the fall-through of the Python body: when no
    [if] fires, control returns to the loop test with nothing changed. *)
Definition lexer_body (source_code : string) (st : state) : result state :=
  let '(position, tokens) := st in
  char <- getitem source_code position ;;
  if isspace char then Ok (position + 1, tokens)
  else
    opens_comment <-
      (if (char =? "[")%char
       then next <- getitem source_code (position + 1) ;; Ok (next =? "*")%char
       else Ok false) ;;
    if opens_comment then
      position' <- handle_comment source_code position ;;
      Ok (position', tokens)
    else if is_letter char then
      let lexeme := get_identifier source_code position in
      if str_in lexeme keywords
      then Ok (position + length lexeme, (tokens ++ [("keyword", lexeme)])%list)
      else Ok (position + length lexeme, (tokens ++ [("identifier", lexeme)])%list)
    else if is_digit char then
      let '(lexeme, is_real) := get_number source_code position in
      if is_real
      then Ok (position + length lexeme, (tokens ++ [("real", lexeme)])%list)
      else Ok (position + length lexeme, (tokens ++ [("integer", lexeme)])%list)
    else if starts_operator char then
      lexeme <- get_operator source_code position ;;
      Ok (position + length lexeme, (tokens ++ [("operator", lexeme)])%list)
    else if str_in (str1 char) separators then
      Ok (position + 1, (tokens ++ [("separator", str1 char)])%list)
    else Ok (position, tokens).

(** The driving loop, with fuel counting iterations: [None] means the
    loop is still running after [fuel] passes. *)
Fixpoint lexer_loop (fuel : nat) (source_code : string) (st : state)
    : option (result (list token)) :=
  match fuel with
  | 0 => None
  | S fuel' =>
      if (fst st <? length source_code)%nat then
        match lexer_body source_code st with
        | Ok st' => lexer_loop fuel' source_code st'
        | Raise e => Some (Raise e)
        end
      else Some (Ok (snd st))
  end.

Definition lexer (fuel : nat) (source_code : string) : option (result (list token)) :=
  lexer_loop fuel source_code (0, []).

(** What a call [lexer(source_code)] can do. *)
Definition lexer_returns (source_code : string) (tokens : list token) : Prop :=
  exists fuel, lexer fuel source_code = Some (Ok tokens).

Definition lexer_raises (source_code : string) (e : exn) : Prop :=
  exists fuel, lexer fuel source_code = Some (Raise e).

Definition lexer_hangs (source_code : string) : Prop :=
  forall fuel, lexer fuel source_code = None.

(** The states the loop passes through: [lexer_iter s st st'] when the
    loop, entered in [st], is at its test in [st'] some iterations
    later. *)
Inductive lexer_iter (source_code : string) : state -> state -> Prop :=
| iter_here : forall st, lexer_iter source_code st st
| iter_next : forall st st' st'',
    fst st < length source_code ->
    lexer_body source_code st = Ok st' ->
    lexer_iter source_code st' st'' ->
    lexer_iter source_code st st''.

(** ** Reference functions used to state the results *)

(** The longest prefix of [s] whose characters satisfy [p]. *)
Fixpoint take_while (p : ascii -> bool) (s : string) : string :=
  match s with
  | EmptyString => EmptyString
  | String c s' => if p c then String c (take_while p s') else EmptyString
  end.

(** [s[n:]] *)
Fixpoint drop (n : nat) (s : string) : string :=
  match n, s with
  | 0, _ => s
  | S n', EmptyString => EmptyString
  | S n', String _ s' => drop n' s'
  end.

(** The lexemes of a token list, one after the other. *)
Definition lexemes (tokens : list token) : string :=
  fold_right (fun t acc => snd t ++ acc) "" tokens.

(** A text with its whitespace characters removed. *)
Fixpoint without_spaces (s : string) : string :=
  match s with
  | EmptyString => EmptyString
  | String c s' =>
      if isspace c then without_spaces s' else String c (without_spaces s')
  end.

(** What [get_number] returns, read off the text after [position]:
    the digits, then, if a point follows, the point and the digits
    after it. *)
Definition number_at (s : string) : string * bool :=
  let digits := take_while isdigit s in
  match drop (length digits) s with
  | String "."%char rest => (digits ++ "." ++ take_while isdigit rest, true)
  | _ => (digits, false)
  end.

(** The categories the body gives to a word and to a number. *)
Definition word_tag (lexeme : string) : string :=
  if str_in lexeme keywords then "keyword" else "identifier".

Definition number_tag (is_real : bool) : string :=
  if is_real then "real" else "integer".

Definition nonempty_lexeme (t : token) : Prop := snd t <> "".

(** A string with no whitespace character in it. *)
Definition no_space (s : string) : Prop :=
  forall k c, get k s = Some c -> isspace c = false.

(** A character for which the body of the loop has no branch. *)
Definition unclassified (c : ascii) : bool :=
  negb (isspace c || is_letter c || is_digit c || starts_operator c
        || str_in (str1 c) separators).

(** The positions at which a pass of the body leaves the cursor where
    it is: a [!] not followed by [=], a [[] followed by something other
    than [*], or any other unclassified character. *)
Definition stuck_at (source_code : string) (position : nat) : bool :=
  match get position source_code with
  | None => false
  | Some c =>
      if (c =? "!")%char then
        match get (position + 1) source_code with
        | Some next => negb (next =? "=")%char
        | None => true
        end
      else if (c =? "[")%char then
        match get (position + 1) source_code with
        | Some next => negb (next =? "*")%char
        | None => false
        end
      else unclassified c
  end.

(** The characters of plain program text: whitespace, letters, digits,
    the one-character operators and the separators. *)
Definition plain_char (c : ascii) : bool :=
  isspace c || is_letter c || is_digit c
  || str_in (str1 c) operators || str_in (str1 c) separators.

(** [all(p(c) for c in s)] *)
Fixpoint forall_chars (p : ascii -> bool) (s : string) : bool :=
  match s with
  | EmptyString => true
  | String c s' => p c && forall_chars p s'
  end.

Definition plain_text (s : string) : Prop := forall_chars plain_char s = true.

(** The two ways a pass of the body can raise. *)
Definition raises_at (source_code : string) (position : nat) (e : exn) : Prop :=
  get position source_code = Some "["%char
  /\ ((get (position + 1) source_code = Some "*"%char
       /\ (forall q, position <= q -> substring q 2 source_code <> "*]")
       /\ e = ValueError "Unterminated comment block")
      \/ (position + 1 = length source_code /\ e = IndexError)).

(** The passes of the body that return, read at a cursor standing on
    [char]: the new position and the tokens the pass appends. *)
Inductive pass (source_code : string) (position : nat) (char : ascii)
    : nat -> list token -> Prop :=
| pass_space :
    isspace char = true ->
    pass source_code position char (position + 1) []
| pass_comment : forall position',
    char = "["%char ->
    get (position + 1) source_code = Some "*"%char ->
    handle_comment source_code position = Ok position' ->
    pass source_code position char position' []
| pass_word : forall lexeme,
    is_letter char = true ->
    lexeme = take_while ident_char (drop position source_code) ->
    pass source_code position char
      (position + length lexeme) [(word_tag lexeme, lexeme)]
| pass_number : forall lexeme is_real,
    is_digit char = true ->
    number_at (drop position source_code) = (lexeme, is_real) ->
    pass source_code position char
      (position + length lexeme) [(number_tag is_real, lexeme)]
| pass_operator : forall lexeme,
    starts_operator char = true ->
    get_operator source_code position = Ok lexeme ->
    pass source_code position char
      (position + length lexeme) [("operator", lexeme)]
| pass_separator :
    str_in (str1 char) separators = true ->
    pass source_code position char
      (position + 1) [("separator", str1 char)]
| pass_nothing :
    unclassified char = true ->
    (char = "["%char ->
     exists next,
       get (position + 1) source_code = Some next /\ next <> "*"%char) ->
    pass source_code position char position [].

(** The shape of a real lexeme: at least one digit, a point, digits. *)
Definition real_shape (lexeme : string) : bool :=
  let digits := take_while isdigit lexeme in
  negb (digits =? "")
  && match drop (length digits) lexeme with
     | String "."%char rest => forall_chars isdigit rest
     | _ => false
     end.

Definition starts_with (p : ascii -> bool) (s : string) : bool :=
  match s with
  | String c _ => p c
  | EmptyString => false
  end.

(** A token whose lexeme fits its category. *)
Definition token_ok (t : token) : bool :=
  let '(tag, lexeme) := t in
  if tag =? "keyword" then str_in lexeme keywords
  else if tag =? "identifier" then
    negb (str_in lexeme keywords)
    && starts_with is_letter lexeme && forall_chars ident_char lexeme
  else if tag =? "integer" then
    starts_with isdigit lexeme && forall_chars isdigit lexeme
  else if tag =? "real" then real_shape lexeme
  else if tag =? "operator" then str_in lexeme operators
  else if tag =? "separator" then str_in lexeme separators
  else false.

(** The part of [lexer_body] that follows the comment test, with the
    outcome of that test as a parameter; [lexer_body_dispatch] below
    shows that [lexer_body] is this function after its first two
    tests. *)
Definition dispatch (source_code : string) (position : nat)
    (tokens : list token) (char : ascii) (opens_comment : bool) : result state :=
  if opens_comment then
    position' <- handle_comment source_code position ;;
    Ok (position', tokens)
  else if is_letter char then
    let lexeme := get_identifier source_code position in
    if str_in lexeme keywords
    then Ok (position + length lexeme, (tokens ++ [("keyword", lexeme)])%list)
    else Ok (position + length lexeme, (tokens ++ [("identifier", lexeme)])%list)
  else if is_digit char then
    let '(lexeme, is_real) := get_number source_code position in
    if is_real
    then Ok (position + length lexeme, (tokens ++ [("real", lexeme)])%list)
    else Ok (position + length lexeme, (tokens ++ [("integer", lexeme)])%list)
  else if starts_operator char then
    lexeme <- get_operator source_code position ;;
    Ok (position + length lexeme, (tokens ++ [("operator", lexeme)])%list)
  else if str_in (str1 char) separators then
    Ok (position + 1, (tokens ++ [("separator", str1 char)])%list)
  else Ok (position, tokens).

(** A character that ends every lexeme before it: it cannot continue
    a word or a number, and it cannot complete a two-character
    operator.  Whitespace and [[] are such characters. *)
Definition break_char (c : ascii) : bool :=
  negb (ident_char c || (c =? ".")%char || (c =? "=")%char).

(** A result with its token list changed by [f]. *)
Definition map_tokens (f : list token -> list token)
    (r : result (list token)) : result (list token) :=
  match r with
  | Ok tokens => Ok (f tokens)
  | Raise e => Raise e
  end.

(** The lexemes of a token list written out with a space after each. *)
Fixpoint respell (tokens : list token) : string :=
  match tokens with
  | [] => ""
  | t :: tokens' => snd t ++ " " ++ respell tokens'
  end.

(** ** The output of the main block

    The main block prints, for each token [(token, lexeme)] the scan
    returned, the line [f"Token: {token}, Lexeme: {lexeme}"]. *)

Definition format_token (t : token) : string :=
  "Token: " ++ fst t ++ ", Lexeme: " ++ snd t.

Definition print_tokens (tokens : list token) : list string :=
  map format_token tokens.

(** ** Sanity checks on concrete inputs *)

Example scan_comment :
  lexer 20 "a [* ignored *] b" = Some (Ok [("identifier", "a"); ("identifier", "b")]).
Proof. reflexivity. Qed.

Example scan_unterminated :
  lexer 20 "a [* never closes" = Some (Raise (ValueError "Unterminated comment block")).
Proof. reflexivity. Qed.

Example scan_separators :
  lexer 20 "(a,b)" =
  Some (Ok [("separator", "("); ("identifier", "a"); ("separator", ",");
            ("identifier", "b"); ("separator", ")")]).
Proof. reflexivity. Qed.

(** ** Strings: indexing, suffixes and prefixes *)

Section StringFacts.

Lemma append_empty_r (s : string) : s ++ "" = s.
Proof. induction s as [|c s IH]; simpl; [reflexivity | now rewrite IH]. Qed.

Lemma append_assoc (s t u : string) : (s ++ t) ++ u = s ++ (t ++ u).
Proof. induction s as [|c s IH]; simpl; [reflexivity | now rewrite IH]. Qed.

Lemma length_append (s t : string) : length (s ++ t) = length s + length t.
Proof. induction s as [|c s IH]; simpl; [reflexivity | now rewrite IH]. Qed.

Lemma get_some_lt (s : string) : forall n c, get n s = Some c -> n < length s.
Proof.
  induction s as [|a s IH]; intros [|n] c H; simpl in *; try discriminate.
  - lia.
  - apply IH in H. lia.
Qed.

Lemma get_none_ge (s : string) : forall n, get n s = None -> length s <= n.
Proof.
  induction s as [|a s IH]; intros [|n] H; simpl in *; try discriminate; try lia.
  apply IH in H. lia.
Qed.

Lemma get_ge_none (s : string) : forall n, length s <= n -> get n s = None.
Proof.
  intros n Hn. destruct (get n s) as [c|] eqn:E; [|reflexivity].
  apply get_some_lt in E. lia.
Qed.

Lemma drop_get_some (s : string) :
  forall n c, get n s = Some c -> drop n s = String c (drop (n + 1) s).
Proof.
  induction s as [|a s IH]; intros [|n] c H; simpl in *; try discriminate.
  - injection H as ->. reflexivity.
  - now apply IH.
Qed.

Lemma drop_get_none (s : string) : forall n, get n s = None -> drop n s = "".
Proof.
  induction s as [|a s IH]; intros [|n] H; simpl in *;
    try discriminate; try reflexivity.
  now apply IH.
Qed.

Lemma get_drop (s : string) : forall n k, get k (drop n s) = get (n + k) s.
Proof.
  induction s as [|a s IH]; intros [|n] k; simpl; try reflexivity.
  apply IH.
Qed.

Lemma drop_drop (s : string) : forall n k, drop k (drop n s) = drop (n + k) s.
Proof.
  induction s as [|a s IH]; intros [|n] k; simpl; try reflexivity.
  - now destruct k.
  - apply IH.
Qed.

Lemma length_drop (s : string) : forall n, length (drop n s) = length s - n.
Proof. induction s as [|a s IH]; intros [|n]; simpl; auto. Qed.

(** A prefix of a suffix is a slice. *)
Lemma take_while_substring (p : ascii -> bool) (s : string) :
  forall n, substring n (length (take_while p (drop n s))) s
            = take_while p (drop n s).
Proof.
  induction s as [|a s IH]; intros [|n]; simpl; try reflexivity.
  - destruct (p a); simpl; [|reflexivity].
    f_equal. exact (IH 0).
  - apply IH.
Qed.

Lemma take_while_all (p : ascii -> bool) (s : string) :
  forall k c, get k (take_while p s) = Some c -> p c = true.
Proof.
  induction s as [|a s IH]; intros k c H; simpl in H; [discriminate|].
  destruct (p a) eqn:E; [|discriminate].
  destruct k as [|k]; simpl in H.
  - now injection H as <-.
  - eauto.
Qed.

(** The prefix is the longest one: the character after it, if any,
    fails [p]. *)
Lemma take_while_maximal (p : ascii -> bool) (s : string) :
  forall c, get (length (take_while p s)) s = Some c -> p c = false.
Proof.
  induction s as [|a s IH]; intros c H; simpl in H; [discriminate|].
  destruct (p a) eqn:E; simpl in H.
  - now apply IH.
  - now injection H as <-.
Qed.

Lemma str_in_In (x : string) (l : list string) : str_in x l = true <-> In x l.
Proof.
  induction l as [|y l IH]; simpl.
  - split; [discriminate | tauto].
  - rewrite orb_true_iff, IH, String.eqb_eq. split; intros [H|H]; auto.
Qed.

End StringFacts.

(** ** The inner loop computes a longest prefix *)

Section WhileChars.

Variable p : ascii -> bool.

Lemma while_chars_spec :
  forall fuel source_code position lexeme,
    length source_code - position <= fuel ->
    while_chars p fuel source_code position lexeme
    = (position + length (take_while p (drop position source_code)),
       lexeme ++ take_while p (drop position source_code)).
Proof.
  induction fuel as [|fuel IH]; intros s pos lex Hfuel.
  - simpl. rewrite (drop_get_none s pos) by (apply get_ge_none; lia).
    simpl. now rewrite append_empty_r, Nat.add_0_r.
  - simpl. destruct (get pos s) as [c|] eqn:Hget.
    + rewrite (drop_get_some s pos c Hget). simpl.
      destruct (p c).
      * rewrite IH by lia. simpl. rewrite append_assoc. simpl.
        f_equal. lia.
      * simpl. now rewrite append_empty_r, Nat.add_0_r.
    + rewrite (drop_get_none s pos Hget). simpl.
      now rewrite append_empty_r, Nat.add_0_r.
Qed.

End WhileChars.

Lemma get_identifier_spec (source_code : string) (position : nat) :
  get_identifier source_code position
  = take_while ident_char (drop position source_code).
Proof.
  unfold get_identifier. now rewrite while_chars_spec by lia.
Qed.

Lemma get_number_spec (source_code : string) (position : nat) :
  get_number source_code position = number_at (drop position source_code).
Proof.
  unfold get_number, number_at.
  rewrite while_chars_spec by lia.
  set (digits := take_while isdigit (drop position source_code)).
  destruct (get (position + length digits) source_code) as [c|] eqn:Hget.
  - assert (Hd : drop (length digits) (drop position source_code)
                 = String c (drop (position + length digits + 1) source_code)).
    { rewrite drop_drop. now apply drop_get_some. }
    rewrite Hd.
    destruct (Ascii.eqb_spec c "."%char) as [->|Hne].
    + rewrite while_chars_spec by lia. simpl. now rewrite append_assoc.
    + destruct c as [[] [] [] [] [] [] [] []]; try reflexivity; now elim Hne.
  - assert (Hd : drop (length digits) (drop position source_code) = "").
    { apply drop_get_none. now rewrite get_drop. }
    now rewrite Hd.
Qed.

(** ** Character classes

    The classes the dispatch in [lexer_body] tests are pairwise
    disjoint; each fact is checked on all 256 code points. *)

Ltac all_chars c :=
  destruct c as [[] [] [] [] [] [] [] []]; vm_compute;
  repeat split; solve [reflexivity | discriminate | congruence].

Lemma letter_class (c : ascii) :
  is_letter c = true ->
  isspace c = false /\ (c =? "[")%char = false /\ ident_char c = true
  /\ is_digit c = false /\ (c =? ".")%char = false.
Proof. all_chars c. Qed.

Lemma digit_class (c : ascii) :
  is_digit c = true ->
  isspace c = false /\ (c =? "[")%char = false /\ is_letter c = false
  /\ (c =? ".")%char = false /\ (c =? "-")%char = false.
Proof. all_chars c. Qed.

Lemma operator_class (c : ascii) :
  starts_operator c = true ->
  isspace c = false /\ (c =? "[")%char = false /\ is_letter c = false
  /\ is_digit c = false.
Proof. all_chars c. Qed.

Lemma ident_char_not_minus (c : ascii) :
  ident_char c = true -> (c =? "-")%char = false.
Proof. all_chars c. Qed.

(** ** The driving loop: fuel and determinism *)

Lemma lexer_loop_mono (source_code : string) :
  forall fuel st r,
    lexer_loop fuel source_code st = Some r ->
    forall fuel', fuel <= fuel' -> lexer_loop fuel' source_code st = Some r.
Proof.
  induction fuel as [|fuel IH]; intros st r H fuel' Hle; [discriminate|].
  destruct fuel' as [|fuel']; [lia|].
  simpl in *.
  destruct (fst st <? length source_code)%nat; [|assumption].
  destruct (lexer_body source_code st) as [st'|e]; [|assumption].
  apply IH with (fuel' := fuel') in H; [assumption | lia].
Qed.

Lemma lexer_deterministic (source_code : string) (fuel1 fuel2 : nat) r1 r2 :
  lexer fuel1 source_code = Some r1 ->
  lexer fuel2 source_code = Some r2 ->
  r1 = r2.
Proof.
  unfold lexer. intros H1 H2.
  apply lexer_loop_mono with (fuel' := fuel1 + fuel2) in H1; [|lia].
  apply lexer_loop_mono with (fuel' := fuel1 + fuel2) in H2; [|lia].
  congruence.
Qed.

(** A run that returns returns exactly one token list. *)
Lemma lexer_returns_exactly (source_code : string) (fuel : nat) tokens :
  lexer fuel source_code = Some (Ok tokens) ->
  forall tokens', lexer_returns source_code tokens' <-> tokens' = tokens.
Proof.
  intros H tokens'. split.
  - intros [fuel' H']. pose proof (lexer_deterministic _ _ _ _ _ H' H).
    congruence.
  - intros ->. now exists fuel.
Qed.

(** A position at which the body never moves the cursor, whatever the
    tokens collected so far, keeps the loop running for ever. *)
Lemma stuck_position_hangs (source_code : string) (position : nat) :
  position < length source_code ->
  (forall tokens, exists tokens',
      lexer_body source_code (position, tokens) = Ok (position, tokens')) ->
  forall fuel tokens, lexer_loop fuel source_code (position, tokens) = None.
Proof.
  intros Hlt Hstuck.
  induction fuel as [|fuel IH]; intros tokens; [reflexivity|].
  cbn [lexer_loop fst]. apply Nat.ltb_lt in Hlt. rewrite Hlt.
  destruct (Hstuck tokens) as [tokens' ->]. apply IH.
Qed.

(** ** Slices *)

Lemma substring_drop (s : string) :
  forall n m, substring n m s = substring 0 m (drop n s).
Proof.
  induction s as [|a s IH]; intros [|n] m; simpl; try reflexivity.
  - now destruct m.
  - apply IH.
Qed.

Lemma length_substring (s : string) :
  forall n m, n + m <= length s -> length (substring n m s) = m.
Proof.
  induction s as [|a s IH]; intros [|n] [|m] H; simpl in *;
    try reflexivity; try lia.
  - f_equal. apply (IH 0 m). lia.
  - apply IH. lia.
  - apply IH. lia.
Qed.

Lemma substring_idem (s : string) :
  forall n m, substring n (length (substring n m s)) s = substring n m s.
Proof.
  induction s as [|a s IH]; intros [|n] [|m]; simpl; try reflexivity.
  - f_equal. apply (IH 0).
  - apply IH.
  - apply IH.
Qed.

Lemma substring_prefix (s t : string) : substring 0 (length s) (s ++ t) = s.
Proof.
  induction s as [|a s IH]; simpl.
  - now destruct t.
  - now rewrite IH.
Qed.

Lemma take_while_split (p : ascii -> bool) (s : string) :
  s = take_while p s ++ drop (length (take_while p s)) s.
Proof.
  induction s as [|a s IH]; simpl; [reflexivity|].
  destruct (p a); simpl; [now rewrite <- IH | reflexivity].
Qed.

Lemma get_append_l (s t : string) :
  forall k c, get k s = Some c -> get k (s ++ t) = Some c.
Proof.
  induction s as [|a s IH]; intros [|k] c H; simpl in *;
    try discriminate; auto.
Qed.

Lemma get_append_r (s t : string) : forall k, get (length s + k) (s ++ t) = get k t.
Proof. induction s as [|a s IH]; intros k; simpl; auto. Qed.

(** ** Comments: where [handle_comment] looks for the closing marker *)

Lemma index_ge (s1 s2 : string) :
  forall n m, index n s1 s2 = Some m -> n <= m.
Proof.
  induction s2 as [|b s2 IH]; intros [|n] m H; simpl in H; try lia.
  - discriminate.
  - destruct (index n s1 s2) as [k|] eqn:E; [|discriminate].
    injection H as <-. apply IH in E. lia.
Qed.

Lemma handle_comment_after (source_code : string) (position position' : nat) :
  handle_comment source_code position = Ok position' ->
  position + 2 <= position'.
Proof.
  unfold handle_comment, find. intros H.
  destruct (index position "*]" source_code) as [e|] eqn:E; [|discriminate].
  injection H as <-. apply index_ge in E. lia.
Qed.

(** ** The body of the loop, branch by branch *)

Section Branches.

Variables (source_code : string) (position : nat) (tokens : list token).
Variable char : ascii.
Hypothesis Hchar : get position source_code = Some char.

Lemma body_letter :
  is_letter char = true ->
  let lexeme := take_while ident_char (drop position source_code) in
  lexer_body source_code (position, tokens)
  = Ok (position + length lexeme,
        (tokens ++ [(word_tag lexeme, lexeme)])%list).
Proof.
  intros Hl lexeme.
  destruct (letter_class char Hl) as (Hsp & Hbr & _).
  unfold lexer_body, getitem. rewrite Hchar. cbn [bind].
  rewrite Hsp, Hbr. cbn [bind]. rewrite Hl.
  rewrite get_identifier_spec. fold lexeme. unfold word_tag.
  now destruct (str_in lexeme keywords).
Qed.

Lemma body_digit :
  is_digit char = true ->
  let '(lexeme, is_real) := number_at (drop position source_code) in
  lexer_body source_code (position, tokens)
  = Ok (position + length lexeme,
        (tokens ++ [(number_tag is_real, lexeme)])%list).
Proof.
  intros Hd.
  destruct (digit_class char Hd) as (Hsp & Hbr & Hl & _).
  unfold lexer_body, getitem. rewrite Hchar. cbn [bind].
  rewrite Hsp, Hbr. cbn [bind]. rewrite Hl, Hd.
  rewrite get_number_spec.
  destruct (number_at (drop position source_code)) as [lexeme is_real].
  now destruct is_real.
Qed.

Lemma body_operator :
  starts_operator char = true ->
  lexer_body source_code (position, tokens)
  = (lexeme <- get_operator source_code position ;;
     Ok (position + length lexeme,
         (tokens ++ [("operator", lexeme)])%list)).
Proof.
  intros Ho.
  destruct (operator_class char Ho) as (Hsp & Hbr & Hl & Hd).
  unfold lexer_body, getitem. rewrite Hchar. cbn [bind].
  rewrite Hsp, Hbr. cbn [bind]. now rewrite Hl, Hd, Ho.
Qed.

Lemma word_starts_with_letter :
  is_letter char = true ->
  get 0 (take_while ident_char (drop position source_code)) = Some char.
Proof.
  intros Hl. destruct (letter_class char Hl) as (_ & _ & Hid & _).
  rewrite (drop_get_some _ _ _ Hchar). simpl. now rewrite Hid.
Qed.

Lemma digits_start_with_digit :
  is_digit char = true ->
  get 0 (take_while isdigit (drop position source_code)) = Some char.
Proof.
  intros Hd. rewrite (drop_get_some _ _ _ Hchar). simpl.
  unfold is_digit in Hd. now rewrite Hd.
Qed.

End Branches.

(** ** Numbers *)

(** The two shapes of a numeric lexeme. *)
Lemma number_at_cases (s : string) :
  let digits := take_while isdigit s in
  (exists rest,
      drop (length digits) s = String "." rest
      /\ number_at s = (digits ++ "." ++ take_while isdigit rest, true))
  \/ ((forall rest, drop (length digits) s <> String "." rest)
      /\ number_at s = (digits, false)).
Proof.
  intros digits. unfold number_at. fold digits.
  destruct (drop (length digits) s) as [|c rest].
  - right. split; [discriminate | reflexivity].
  - destruct (Ascii.eqb_spec c "."%char) as [->|Hne].
    + left. now exists rest.
    + right. split; [congruence|].
      destruct c as [[] [] [] [] [] [] [] []]; try reflexivity; now elim Hne.
Qed.

Lemma number_at_prefix (s : string) :
  exists rest, s = fst (number_at s) ++ rest.
Proof.
  pose proof (take_while_split isdigit s) as Hs.
  destruct (number_at_cases s) as [(rest & Hdrop & ->)|(_ & ->)]; cbn [fst].
  - exists (drop (length (take_while isdigit rest)) rest).
    rewrite Hdrop in Hs. rewrite Hs at 1. rewrite !append_assoc. simpl.
    now rewrite <- take_while_split.
  - now exists (drop (length (take_while isdigit s)) s).
Qed.

Lemma number_at_slice (source_code : string) (position : nat) :
  let lexeme := fst (number_at (drop position source_code)) in
  substring position (length lexeme) source_code = lexeme.
Proof.
  intros lexeme. rewrite substring_drop.
  destruct (number_at_prefix (drop position source_code)) as [rest Hrest].
  fold lexeme in Hrest. rewrite Hrest at 1. apply substring_prefix.
Qed.

Lemma get_append_inv (s t : string) :
  forall k c, get k (s ++ t) = Some c ->
              get k s = Some c \/ exists j, get j t = Some c.
Proof.
  induction s as [|a s IH]; intros k c H; simpl in *.
  - right. now exists k.
  - destruct k as [|k]; [now left | now apply IH].
Qed.

Lemma digits_no_char (c : ascii) (s : string) :
  isdigit c = false ->
  forall k, get k (take_while isdigit s) <> Some c.
Proof.
  intros Hc k H. apply take_while_all in H. congruence.
Qed.

(** The flag is set exactly when the lexeme contains the point. *)
Lemma number_at_real (s : string) :
  snd (number_at s) = true <->
  exists k, get k (fst (number_at s)) = Some "."%char.
Proof.
  destruct (number_at_cases s) as [(rest & Hdrop & ->)|(_ & ->)];
    cbn [fst snd].
  - split; [intros _ | reflexivity].
    exists (length (take_while isdigit s) + 0). now rewrite get_append_r.
  - split; [discriminate|]. intros [k Hk].
    now apply digits_no_char in Hk.
Qed.

(** No numeric lexeme contains a minus sign. *)
Lemma number_at_no_minus (s : string) :
  forall k, get k (fst (number_at s)) <> Some "-"%char.
Proof.
  intros k H.
  destruct (number_at_cases s) as [(rest & Hdrop & E)|(_ & E)];
    rewrite E in H; cbn [fst] in H.
  - apply get_append_inv in H as [H|[j H]].
    + now apply digits_no_char in H.
    + destruct j as [|j]; simpl in H; [discriminate|].
      now apply digits_no_char in H.
  - now apply digits_no_char in H.
Qed.

(** ** One pass never moves the cursor back *)

Lemma get_operator_result (source_code : string) (position : nat) (lexeme : string) :
  get_operator source_code position = Ok lexeme ->
  lexeme = ""
  \/ (str_in lexeme operators = true
      /\ substring position (length lexeme) source_code = lexeme).
Proof.
  unfold get_operator, getitem. intros H.
  destruct (str_in (substring position 2 source_code) operators) eqn:Hin.
  - right. injection H as <-. split; [exact Hin|].
    apply substring_idem.
  - destruct (get position source_code) as [c|] eqn:Hget; cbn [bind] in H;
      [|discriminate].
    destruct (str_in (str1 c) operators) eqn:Hin1; injection H as <-.
    + right. split; [exact Hin1|].
      rewrite substring_drop, (drop_get_some _ _ _ Hget). simpl.
      now destruct (drop (position + 1) source_code).
    + now left.
Qed.

(** Case analysis on a pass of the body that is known to succeed:
    each use splits on the next test the body performs. *)
Ltac split_body H :=
  repeat (cbn [bind] in H;
          match type of H with
          | (if ?b then _ else _) = _ => destruct b eqn:?
          | bind (if ?b then _ else _) _ = _ => destruct b eqn:?
          | bind (bind ?c _) _ = _ => destruct c eqn:?
          | bind ?c _ = _ => destruct c eqn:?
          | (let '(_, _) := ?p in _) = _ => destruct p as [? [|]] eqn:?
          end);
  try discriminate H.

Lemma lexer_body_monotone (source_code : string) (position position' : nat)
    (tokens tokens' : list token) :
  lexer_body source_code (position, tokens) = Ok (position', tokens') ->
  position <= position'.
Proof.
  intros H. unfold lexer_body in H. split_body H;
    try (injection H as <- _; lia).
  all: injection H as <- _;
    match goal with
    | E : handle_comment _ _ = Ok _ |- _ => apply handle_comment_after in E; lia
    end.
Qed.

(** ** The minus sign *)

Lemma get_operator_minus (source_code : string) (position : nat) :
  get position source_code = Some "-"%char ->
  get_operator source_code position = Ok "-".
Proof.
  intros Hget. unfold get_operator, getitem.
  rewrite substring_drop, (drop_get_some _ _ _ Hget), Hget.
  destruct (drop (position + 1) source_code) as [|d rest]; [reflexivity|].
  destruct rest; reflexivity.
Qed.

(** ** Digits followed by a letter *)

Lemma number_at_integer (s : string) (c : ascii) :
  get (length (take_while isdigit s)) s = Some c ->
  (c =? ".")%char = false ->
  number_at s = (take_while isdigit s, false).
Proof.
  intros Hget Hc.
  destruct (number_at_cases s) as [(rest & Hdrop & _)|(_ & E)]; [|exact E].
  rewrite <- (Nat.add_0_r (length _)), <- get_drop, Hdrop in Hget.
  injection Hget as <-. discriminate.
Qed.

(** ** What a run that returns can contain *)

(** A pass of the body adds at most one token, moves the cursor by the
    length of that token's lexeme, and does the same whatever tokens
    were collected before. *)
Lemma lexer_body_shape (source_code : string) (position position' : nat)
    (tokens tokens' : list token) :
  lexer_body source_code (position, tokens) = Ok (position', tokens') ->
  exists emitted,
    tokens' = (tokens ++ emitted)%list
    /\ (forall tokens0,
          lexer_body source_code (position, tokens0)
          = Ok (position', (tokens0 ++ emitted)%list))
    /\ (emitted = []
        \/ exists tag lexeme,
            emitted = [(tag, lexeme)] /\ position' = position + length lexeme).
Proof.
  intros H. unfold lexer_body in H. split_body H; injection H as <- <-;
    first
      [ exists []; rewrite app_nil_r; split; [reflexivity|]; split;
        [ intros tokens0; rewrite app_nil_r; unfold lexer_body;
          repeat match goal with
                 | E : ?x = _ |- context [?x] => rewrite E; cbn [bind]
                 end; reflexivity
        | now left ]
      | eexists [(_, _)]; split; [reflexivity|]; split;
        [ intros tokens0; unfold lexer_body;
          repeat match goal with
                 | E : ?x = _ |- context [?x] => rewrite E; cbn [bind]
                 end; reflexivity
        | right; do 2 eexists; split; reflexivity ] ].
Qed.

Lemma lexer_loop_nonempty (source_code : string) :
  forall fuel st out,
    lexer_loop fuel source_code st = Some (Ok out) ->
    Forall nonempty_lexeme (snd st) ->
    Forall nonempty_lexeme out.
Proof.
  induction fuel as [|fuel IH]; intros [position tokens] out H Hall;
    [discriminate|].
  cbn [lexer_loop fst snd] in H.
  destruct (position <? length source_code)%nat eqn:Hlt;
    [|now injection H as <-].
  destruct (lexer_body source_code (position, tokens))
    as [[position' tokens']|e] eqn:Hbody; [|discriminate].
  apply (IH _ _ H). cbn [snd].
  destruct (lexer_body_shape _ _ _ _ _ Hbody)
    as (emitted & -> & Hany & [->|(tag & lexeme & -> & ->)]).
  - now rewrite app_nil_r.
  - apply Forall_app. split; [exact Hall|].
    constructor; [|constructor].
    unfold nonempty_lexeme. cbn [snd]. intros ->.
    cbn [length] in H, Hany. rewrite Nat.add_0_r in H, Hany.
    rewrite stuck_position_hangs in H; [discriminate | |].
    + now apply Nat.ltb_lt.
    + intros tokens0. eexists. apply Hany.
Qed.

(** Every token of a list the scan returns has a non-empty lexeme: a
    pass that emits an empty lexeme leaves the cursor in place and is
    repeated for ever, so such a run never returns. *)
Lemma returned_lexemes_nonempty (source_code : string) (tokens : list token) :
  lexer_returns source_code tokens -> Forall nonempty_lexeme tokens.
Proof.
  intros [fuel H]. apply (lexer_loop_nonempty _ _ _ _ H). constructor.
Qed.

(** ** What a run that returns has read

    On a text in which no comment opens, every pass of the body that
    emits a token emits the slice of the text it steps over, and the
    passes that emit nothing step over whitespace only.  So if the scan
    returns, its lexemes spell out the text without its whitespace. *)

Lemma without_spaces_append (s t : string) :
  without_spaces (s ++ t) = without_spaces s ++ without_spaces t.
Proof.
  induction s as [|a s IH]; simpl; [reflexivity|].
  destruct (isspace a); simpl; now rewrite IH.
Qed.

Lemma without_spaces_no_space (s : string) : no_space s -> without_spaces s = s.
Proof.
  induction s as [|a s IH]; intros H; simpl; [reflexivity|].
  rewrite (H 0 a eq_refl). f_equal. apply IH.
  intros k c Hk. exact (H (S k) c Hk).
Qed.

Lemma lexemes_snoc (tokens : list token) (t : token) :
  lexemes (tokens ++ [t]) = lexemes tokens ++ snd t.
Proof.
  induction tokens as [|u tokens IH]; simpl.
  - apply append_empty_r.
  - now rewrite IH, append_assoc.
Qed.

Lemma substring_split (s : string) :
  forall n k, substring 0 (n + k) s = substring 0 n s ++ substring n k s.
Proof.
  induction s as [|a s IH]; intros [|n] k; simpl.
  - now destruct k.
  - reflexivity.
  - reflexivity.
  - f_equal. apply IH.
Qed.

Lemma substring_all (s : string) :
  forall n, length s <= n -> substring 0 n s = s.
Proof.
  induction s as [|a s IH]; intros [|n] H; simpl in *; try reflexivity; try lia.
  f_equal. apply IH. lia.
Qed.

Lemma substring_one (s : string) (n : nat) (c : ascii) :
  get n s = Some c -> substring n 1 s = str1 c.
Proof.
  intros H. rewrite substring_drop, (drop_get_some _ _ _ H). simpl.
  now destruct (drop (n + 1) s).
Qed.

Lemma substring_two (s : string) (n : nat) (c d : ascii) :
  get n s = Some c -> get (n + 1) s = Some d ->
  substring n 2 s = String c (String d "").
Proof.
  intros Hc Hd.
  rewrite substring_drop, (drop_get_some _ _ _ Hc), (drop_get_some _ _ _ Hd).
  simpl. now destruct (drop (n + 1 + 1) s).
Qed.

Lemma substring_none (s : string) : forall n, substring n 0 s = "".
Proof. induction s as [|a s IH]; intros [|n]; simpl; auto. Qed.

Lemma no_space_operator (lexeme : string) :
  str_in lexeme operators = true -> no_space lexeme.
Proof.
  intros H. apply str_in_In in H. simpl in H.
  intros k c Hk.
  repeat (destruct H as [<-|H];
          [destruct k as [|[|k]]; simpl in Hk;
           solve [discriminate | injection Hk as <-; reflexivity]|]).
  contradiction.
Qed.

Lemma no_space_separator (lexeme : string) :
  str_in lexeme separators = true -> no_space lexeme.
Proof.
  intros H. apply str_in_In in H. simpl in H.
  intros k c Hk.
  repeat (destruct H as [<-|H];
          [destruct k as [|k]; simpl in Hk;
           solve [discriminate | injection Hk as <-; reflexivity]|]).
  contradiction.
Qed.

Lemma ident_char_no_space (c : ascii) : ident_char c = true -> isspace c = false.
Proof. all_chars c. Qed.

Lemma digit_no_space (c : ascii) : isdigit c = true -> isspace c = false.
Proof. all_chars c. Qed.

Lemma no_space_word (s : string) : no_space (take_while ident_char s).
Proof.
  intros k c H. apply take_while_all in H. now apply ident_char_no_space.
Qed.

Lemma no_space_digits (s : string) : no_space (take_while isdigit s).
Proof.
  intros k c H. apply take_while_all in H. now apply digit_no_space.
Qed.

Lemma no_space_number (s : string) : no_space (fst (number_at s)).
Proof.
  intros k c H.
  destruct (number_at_cases s) as [(rest & _ & E)|(_ & E)];
    rewrite E in H; cbn [fst] in H.
  - apply get_append_inv in H as [H|[j H]].
    + now apply no_space_digits in H.
    + destruct j as [|j]; simpl in H.
      * now injection H as <-.
      * now apply no_space_digits in H.
  - now apply no_space_digits in H.
Qed.

(** A pass that emits [lexeme], a whitespace-free slice of the text at
    the cursor, extends what has been read by that slice. *)
Lemma emit_slice (source_code : string) (position : nat)
    (tokens : list token) (tag lexeme : string) :
  substring position (length lexeme) source_code = lexeme ->
  no_space lexeme ->
  lexemes (tokens ++ [(tag, lexeme)])
  = lexemes tokens
    ++ without_spaces (substring position (length lexeme) source_code).
Proof.
  intros Hslice Hns. rewrite lexemes_snoc, Hslice. cbn [snd].
  now rewrite without_spaces_no_space.
Qed.

Lemma getitem_ok (s : string) (i : nat) (c : ascii) :
  getitem s i = Ok c -> get i s = Some c.
Proof. unfold getitem. destruct (get i s); congruence. Qed.

Lemma lexer_body_reads (source_code : string) (position position' : nat)
    (tokens tokens' : list token) :
  substring position 2 source_code <> "[*" ->
  lexer_body source_code (position, tokens) = Ok (position', tokens') ->
  exists k,
    position' = position + k
    /\ lexemes tokens'
       = lexemes tokens ++ without_spaces (substring position k source_code).
Proof.
  intros Hopen H. unfold lexer_body in H. split_body H;
    try injection H as <- <-;
    repeat match goal with
           | E : getitem _ _ = Ok _ |- _ => apply getitem_ok in E
           end.
  all: try match goal with
           | E1 : (?a =? "[")%char = true, E2 : (?n =? "*")%char = true |- _ =>
               apply Ascii.eqb_eq in E1, E2; subst a n;
               elim Hopen; now apply substring_two
           end.
  all: try match goal with
           | E : isspace ?a = true, G : get _ _ = Some ?a |- _ =>
               exists 1; split; [reflexivity|];
               rewrite (substring_one _ _ _ G); simpl; rewrite E;
               now rewrite append_empty_r
           end.
  all: try match goal with
           | |- context [get_identifier _ _] =>
               eexists; split; [reflexivity|]; apply emit_slice;
               rewrite get_identifier_spec;
               [apply take_while_substring | apply no_space_word]
           end.
  all: try match goal with
           | E : get_number _ _ = (?l, _) |- _ =>
               rewrite get_number_spec in E;
               assert (l = fst (number_at (drop position source_code)))
                 as -> by (now rewrite E);
               eexists; split; [reflexivity|]; apply emit_slice;
               [apply number_at_slice | apply no_space_number]
           end.
  all: try match goal with
           | E : get_operator _ _ = Ok ?l |- _ =>
               apply get_operator_result in E as [->|[Hin Hslice]];
               [ exists 0; split; [reflexivity|];
                 now rewrite lexemes_snoc, substring_none
               | eexists; split; [reflexivity|]; apply emit_slice;
                 [exact Hslice | now apply no_space_operator] ]
           end.
  all: try match goal with
           | E : str_in (str1 ?a) separators = true, G : get _ _ = Some ?a |- _ =>
               exists (length (str1 a)); split; [reflexivity|];
               apply emit_slice;
               [exact (substring_one _ _ _ G) | now apply no_space_separator]
           end.
  all: exists 0; split; [lia|]; now rewrite substring_none, append_empty_r.
Qed.

Lemma lexer_loop_reads (source_code : string) :
  (forall position, substring position 2 source_code <> "[*") ->
  forall fuel position tokens out,
    lexer_loop fuel source_code (position, tokens) = Some (Ok out) ->
    lexemes tokens = without_spaces (substring 0 position source_code) ->
    lexemes out = without_spaces source_code.
Proof.
  intros Hopen.
  induction fuel as [|fuel IH]; intros position tokens out H Hinv;
    [discriminate|].
  cbn [lexer_loop fst snd] in H.
  destruct (position <? length source_code)%nat eqn:Hlt.
  - destruct (lexer_body source_code (position, tokens))
      as [[position' tokens']|e] eqn:Hbody; [|discriminate].
    destruct (lexer_body_reads _ _ _ _ _ (Hopen position) Hbody)
      as (k & -> & Hread).
    apply (IH _ _ _ H).
    now rewrite Hread, Hinv, substring_split, without_spaces_append.
  - injection H as <-. apply Nat.ltb_ge in Hlt.
    now rewrite Hinv, substring_all.
Qed.

(** If the scan of a text in which no comment opens returns, the
    lexemes of the returned tokens, in order, are the text with its
    whitespace removed. *)
Lemma returned_lexemes_reconstruct (source_code : string) (tokens : list token) :
  (forall position, substring position 2 source_code <> "[*") ->
  lexer_returns source_code tokens ->
  lexemes tokens = without_spaces source_code.
Proof.
  intros Hopen [fuel H].
  apply (lexer_loop_reads _ Hopen _ _ _ _ H).
  simpl. now rewrite substring_none.
Qed.

(** * The properties of the specification *)

(** C1 (termination and reconstruction on texts without comment
    markers).  The text ["@"] contains neither [[*] nor [*]], yet the
    scan does not terminate on it: the character is not whitespace, a
    letter, a digit, the start of an operator or a separator, so no
    branch of the loop body fires, the cursor stays at position 0 and
    the loop test holds for ever. *)
Theorem unclassified_character_hangs :
  find "@" "[*" 0 = None /\ find "@" "*]" 0 = None
  /\ (forall tokens, lexer_body "@" (0, tokens) = Ok (0, tokens))
  /\ lexer_hangs "@".
Proof.
  repeat split.
  intros fuel. apply stuck_position_hangs.
  - simpl. lia.
  - intros tokens. now exists tokens.
Qed.

(** C2 (every emitted lexeme is non-empty).  On the text ["!"] the
    operator branch fires, because [!] is the first character of [!=],
    but [get_operator] finds neither ["!"] nor a two-character operator
    and returns the empty string; the loop appends the token
    [("operator", "")], leaves the cursor where it was, and repeats
    for ever. *)
Theorem bang_emits_empty_lexeme :
  starts_operator "!" = true
  /\ get_operator "!" 0 = Ok ""
  /\ (forall tokens,
        lexer_body "!" (0, tokens) = Ok (0, (tokens ++ [("operator", "")])%list))
  /\ lexer_hangs "!".
Proof.
  repeat split.
  intros fuel. apply stuck_position_hangs.
  - simpl. lia.
  - intros tokens. now exists (tokens ++ [("operator", "")])%list.
Qed.

(** C3 (the scan fails only with the unterminated-comment error, and
    exactly when a comment is left open).  The text ["["] opens no
    comment, yet the scan fails on it, and with a different error: the
    comment test reads [source_code[position+1]] past the end of the
    text and raises [IndexError]. *)
Theorem lone_bracket_raises_index_error :
  find "[" "[*" 0 = None
  /\ lexer_raises "[" IndexError
  /\ (forall fuel r, lexer fuel "[" = Some r -> r = Raise IndexError).
Proof.
  assert (H : lexer 1 "[" = Some (Raise IndexError)) by reflexivity.
  repeat split.
  - now exists 1.
  - intros fuel r Hr. exact (lexer_deterministic _ _ _ _ _ Hr H).
Qed.

(** C4 (the closing marker is searched strictly after the opening
    marker).  [handle_comment] starts its search at the position of the
    [[] itself, so the [*] of the opening marker can serve as the [*]
    of the closing one: on ["[*]"], which has no [*]] at or after
    position 2, the comment is taken to end at position 3 and the scan
    returns the empty token list instead of failing. *)
Theorem comment_closed_by_its_own_star :
  find "[*]" "*]" 2 = None
  /\ find "[*]" "*]" 0 = Some 1
  /\ handle_comment "[*]" 0 = Ok 3
  /\ (forall tokens, lexer_returns "[*]" tokens <-> tokens = []).
Proof.
  repeat split; try reflexivity;
    apply (lexer_returns_exactly "[*]" 2 []); reflexivity.
Qed.

(** C5 (operator longest match).  At a position whose character starts
    an operator, if the slice of (at most) two characters from that
    position is in [operators], the body emits that slice as one
    operator token and moves the cursor past it; the slice has two
    characters whenever two characters are left.  The scan of ["<="]
    returns the single token [("operator", "<=")]. *)
Theorem operator_longest_match :
  (forall source_code position tokens char,
      get position source_code = Some char ->
      starts_operator char = true ->
      str_in (substring position 2 source_code) operators = true ->
      lexer_body source_code (position, tokens)
      = Ok (position + length (substring position 2 source_code),
            (tokens ++ [("operator", substring position 2 source_code)])%list))
  /\ (forall source_code position,
        position + 2 <= length source_code ->
        length (substring position 2 source_code) = 2)
  /\ (forall tokens, lexer_returns "<=" tokens <-> tokens = [("operator", "<=")]).
Proof.
  split; [|split].
  - intros s pos toks c Hget Hop Hin.
    rewrite (body_operator s pos toks c Hget Hop).
    unfold get_operator. now rewrite Hin.
  - intros s pos H. now apply length_substring.
  - apply (lexer_returns_exactly "<=" 2). reflexivity.
Qed.

Lemma operator_longest_match_witness :
  lexer_body "a<=b" (1, [("identifier", "a")])
  = Ok (3, [("identifier", "a"); ("operator", "<=")]).
Proof.
  exact (proj1 operator_longest_match "a<=b" 1 [("identifier", "a")] "<"%char
           eq_refl eq_refl eq_refl).
Defined.

(** C6 (keyword or identifier).  At a position holding a letter the
    body emits the longest run of alphanumeric-or-underscore characters
    from there; the run begins with that letter, and it is tagged
    [keyword] exactly when it is one of the eight reserved words
    (compared character by character, so case matters) and
    [identifier] otherwise.  ["integer"] scans to one keyword,
    ["integerX"] and ["Integer"] to one identifier each. *)
Theorem keyword_or_identifier :
  (forall source_code position tokens char,
      get position source_code = Some char ->
      is_letter char = true ->
      let lexeme := take_while ident_char (drop position source_code) in
      let tag := if str_in lexeme keywords then "keyword" else "identifier" in
      get 0 lexeme = Some char
      /\ substring position (length lexeme) source_code = lexeme
      /\ (forall k c, get k lexeme = Some c -> ident_char c = true)
      /\ (forall c, get (position + length lexeme) source_code = Some c ->
                    ident_char c = false)
      /\ lexer_body source_code (position, tokens)
         = Ok (position + length lexeme, (tokens ++ [(tag, lexeme)])%list))
  /\ (forall lexeme,
        str_in lexeme keywords = true <->
        In lexeme ["integer"; "if"; "else"; "fi"; "while"; "return"; "get"; "put"])
  /\ (forall tokens,
        lexer_returns "integer" tokens <-> tokens = [("keyword", "integer")])
  /\ (forall tokens,
        lexer_returns "integerX" tokens <-> tokens = [("identifier", "integerX")])
  /\ (forall tokens,
        lexer_returns "Integer" tokens <-> tokens = [("identifier", "Integer")]).
Proof.
  repeat apply conj.
  - intros s pos toks c Hget Hl lexeme tag. repeat split.
    + now apply word_starts_with_letter.
    + apply take_while_substring.
    + apply take_while_all.
    + intros c'. rewrite <- get_drop. apply take_while_maximal.
    + exact (body_letter s pos toks c Hget Hl).
  - intros lexeme. apply str_in_In.
  - apply (lexer_returns_exactly "integer" 2). reflexivity.
  - apply (lexer_returns_exactly "integerX" 2). reflexivity.
  - apply (lexer_returns_exactly "Integer" 2). reflexivity.
Qed.

Lemma keyword_or_identifier_witness :
  lexer_body "if x" (0, []) = Ok (2, [("keyword", "if")])
  /\ lexer_body "if x" (3, [("keyword", "if")])
     = Ok (4, [("keyword", "if"); ("identifier", "x")]).
Proof.
  split.
  - apply (proj1 keyword_or_identifier "if x" 0 [] "i"%char eq_refl eq_refl).
  - apply (proj1 keyword_or_identifier "if x" 3 [("keyword", "if")] "x"%char
             eq_refl eq_refl).
Defined.

(** C7 (integer or real).  At a position holding a digit the body
    emits the digits from there and, when a point follows them, the
    point and the digits after it (possibly none).  The lexeme is the
    slice of the text it was read from, and it is tagged [real] exactly
    when it contains the point, [integer] otherwise.  ["123"] scans to
    an integer, ["123.45"] and ["123."] to a real. *)
Theorem integer_or_real :
  (forall source_code position tokens char,
      get position source_code = Some char ->
      is_digit char = true ->
      let lexeme := fst (number_at (drop position source_code)) in
      let is_real := snd (number_at (drop position source_code)) in
      let tag := if is_real then "real" else "integer" in
      get_number source_code position = (lexeme, is_real)
      /\ get 0 lexeme = Some char
      /\ substring position (length lexeme) source_code = lexeme
      /\ (is_real = true <-> exists k, get k lexeme = Some "."%char)
      /\ lexer_body source_code (position, tokens)
         = Ok (position + length lexeme, (tokens ++ [(tag, lexeme)])%list))
  /\ (forall tokens, lexer_returns "123" tokens <-> tokens = [("integer", "123")])
  /\ (forall tokens, lexer_returns "123.45" tokens <-> tokens = [("real", "123.45")])
  /\ (forall tokens, lexer_returns "123." tokens <-> tokens = [("real", "123.")]).
Proof.
  repeat apply conj.
  - intros s pos toks c Hget Hd lexeme is_real tag.
    split; [|split; [|split; [|split]]].
    + rewrite get_number_spec. subst lexeme is_real.
      now destruct (number_at (drop pos s)).
    + subst lexeme.
      pose proof (digits_start_with_digit s pos c Hget Hd) as H0.
      destruct (number_at_cases (drop pos s)) as [(rest & _ & ->)|(_ & ->)];
        cbn [fst]; [now apply get_append_l | exact H0].
    + apply number_at_slice.
    + apply number_at_real.
    + pose proof (body_digit s pos toks c Hget Hd) as Hb.
      subst tag lexeme is_real. unfold number_tag in Hb.
      destruct (number_at (drop pos s)) as [l r]. exact Hb.
  - apply (lexer_returns_exactly "123" 2). reflexivity.
  - apply (lexer_returns_exactly "123.45" 2). reflexivity.
  - apply (lexer_returns_exactly "123." 2). reflexivity.
Qed.

Lemma integer_or_real_witness :
  lexer_body "x=1.5;" (2, []) = Ok (5, [("real", "1.5")]).
Proof.
  apply (proj1 integer_or_real "x=1.5;" 2 [] "1"%char eq_refl eq_refl).
Defined.

(** C8 (the cursor never moves back).  Between any two states the loop
    passes through, the position of the later one is at least the
    position of the earlier one; in particular this holds for a single
    iteration. *)
Theorem cursor_never_moves_back (source_code : string) (st st' : state) :
  lexer_iter source_code st st' -> fst st <= fst st'.
Proof.
  induction 1 as [st | st st1 st2 _ Hbody _ IH]; [reflexivity|].
  destruct st as [position tokens], st1 as [position1 tokens1].
  apply lexer_body_monotone in Hbody. simpl in *. lia.
Qed.

Lemma cursor_never_moves_back_witness :
  lexer_iter "a [**] b" (1, [("identifier", "a")]) (7, [("identifier", "a")])
  /\ 1 <= 7.
Proof.
  assert (H : lexer_iter "a [**] b" (1, [("identifier", "a")])
                (7, [("identifier", "a")])).
  { apply iter_next with (st' := (2, [("identifier", "a")]));
      [simpl; lia | reflexivity |].
    apply iter_next with (st' := (6, [("identifier", "a")]));
      [simpl; lia | reflexivity |].
    apply iter_next with (st' := (7, [("identifier", "a")]));
      [simpl; lia | reflexivity |].
    apply iter_here. }
  split; [exact H|].
  exact (cursor_never_moves_back "a [**] b" _ _ H).
Defined.

(** C9 (the minus sign is an operator of its own).  Wherever the cursor
    stands on a [-], whatever follows it, the body emits the token
    [("operator", "-")] and advances by one; no lexeme returned by
    [get_number] contains a [-].  The scan of ["-5"] returns the
    operator [-] followed by the integer [5]. *)
Theorem minus_is_an_operator :
  (forall source_code position tokens,
      get position source_code = Some "-"%char ->
      lexer_body source_code (position, tokens)
      = Ok (position + 1, (tokens ++ [("operator", "-")])%list))
  /\ (forall source_code position k,
        get k (fst (get_number source_code position)) <> Some "-"%char)
  /\ (forall tokens,
        lexer_returns "-5" tokens <->
        tokens = [("operator", "-"); ("integer", "5")]).
Proof.
  split; [|split].
  - intros s pos toks Hget.
    rewrite (body_operator s pos toks "-"%char Hget eq_refl).
    now rewrite get_operator_minus.
  - intros s pos k. rewrite get_number_spec. apply number_at_no_minus.
  - apply (lexer_returns_exactly "-5" 3). reflexivity.
Qed.

Lemma minus_is_an_operator_witness :
  lexer_body "a-5" (1, [("identifier", "a")])
  = Ok (2, [("identifier", "a"); ("operator", "-")]).
Proof.
  exact (proj1 minus_is_an_operator "a-5" 1 [("identifier", "a")] eq_refl).
Defined.

(** C10 (a digit run followed by a letter).  When the cursor stands on
    a digit and the character right after the longest run of digits
    from there is a letter, two consecutive passes of the body emit the
    integer token for the digit run and then the keyword-or-identifier
    token for the word that begins at that letter.  ["123abc"] scans to
    the integer [123] followed by the identifier [abc]. *)
Theorem digits_then_letter :
  (forall source_code position tokens char letter,
      get position source_code = Some char ->
      is_digit char = true ->
      let digits := take_while isdigit (drop position source_code) in
      get (position + length digits) source_code = Some letter ->
      is_letter letter = true ->
      let word :=
        take_while ident_char (drop (position + length digits) source_code) in
      let tag := if str_in word keywords then "keyword" else "identifier" in
      let tokens1 := (tokens ++ [("integer", digits)])%list in
      get 0 digits = Some char
      /\ get 0 word = Some letter
      /\ lexer_body source_code (position, tokens)
         = Ok (position + length digits, tokens1)
      /\ lexer_body source_code (position + length digits, tokens1)
         = Ok (position + length digits + length word,
               (tokens1 ++ [(tag, word)])%list))
  /\ (forall tokens,
        lexer_returns "123abc" tokens <->
        tokens = [("integer", "123"); ("identifier", "abc")]).
Proof.
  split.
  - intros s pos toks c l Hget Hd digits Hnext Hl word tag tokens1.
    destruct (letter_class l Hl) as (_ & _ & _ & _ & Hdot).
    split; [|split; [|split]].
    + now apply digits_start_with_digit.
    + now apply word_starts_with_letter.
    + pose proof (body_digit s pos toks c Hget Hd) as Hb.
      rewrite (number_at_integer (drop pos s) l) in Hb; [exact Hb | | exact Hdot].
      now rewrite get_drop.
    + exact (body_letter s (pos + length digits) tokens1 l Hnext Hl).
  - apply (lexer_returns_exactly "123abc" 3). reflexivity.
Qed.

Lemma digits_then_letter_witness :
  lexer_body "7up" (0, []) = Ok (1, [("integer", "7")])
  /\ lexer_body "7up" (1, [("integer", "7")])
     = Ok (3, [("integer", "7"); ("identifier", "up")]).
Proof.
  apply (proj1 digits_then_letter "7up" 0 [] "7"%char "u"%char
           eq_refl eq_refl eq_refl eq_refl).
Defined.

(** * Further properties of the scanner *)

(** ** Closing a comment *)

Lemma length_substring_le (s : string) :
  forall n m, n + length (substring n m s) <= Nat.max n (length s).
Proof.
  induction s as [|a s IH]; intros [|n] [|m]; simpl; try lia.
  - specialize (IH 0 m). simpl in IH. lia.
  - specialize (IH n 0). lia.
  - specialize (IH n (S m)). lia.
Qed.

Lemma slice_in_range (s : string) (n m : nat) (t : string) :
  substring n m s = t -> t <> "" -> n + length t <= length s.
Proof.
  intros <- Hne. pose proof (length_substring_le s n m) as H.
  destruct (Nat.le_gt_cases (length s) n) as [Hout|Hin]; [|lia].
  elim Hne. rewrite substring_drop.
  rewrite (drop_get_none s n) by now apply get_ge_none.
  now destruct m.
Qed.

Lemma find_none_no_occurrence (s sub : string) (start : nat) :
  sub <> "" ->
  (find s sub start = None <->
   forall q, start <= q -> substring q (length sub) s <> sub).
Proof.
  intros Hne. unfold find. split.
  - intros H q Hq. now apply (index_correct3 start q sub s).
  - intros H. destruct (index start sub s) as [m|] eqn:E; [|reflexivity].
    elim (H m); [now apply index_ge in E | now apply index_correct1 in E].
Qed.

(** When [handle_comment] returns, the position it returns is just
    past the first [*]] found at or after the position it was given,
    and lies inside the text. *)
Theorem handle_comment_first_closer
    (source_code : string) (position position' : nat) :
  handle_comment source_code position = Ok position' ->
  exists end_pos,
    position' = end_pos + 2
    /\ position <= end_pos
    /\ substring end_pos 2 source_code = "*]"
    /\ (forall q, position <= q -> q < end_pos ->
                  substring q 2 source_code <> "*]")
    /\ position' <= length source_code.
Proof.
  unfold handle_comment, find. intros H.
  destruct (index position "*]" source_code) as [e|] eqn:E; [|discriminate].
  injection H as <-. exists e.
  pose proof (index_correct1 _ _ _ _ E) as Hat.
  repeat split.
  - now apply index_ge in E.
  - exact Hat.
  - intros q Hq Hlt. exact (index_correct2 _ _ _ _ E q Hq Hlt).
  - apply (slice_in_range source_code e 2 "*]" Hat). discriminate.
Qed.

Lemma handle_comment_first_closer_witness :
  exists end_pos,
    9 = end_pos + 2
    /\ 2 <= end_pos
    /\ substring end_pos 2 "a [* b *] c *] d" = "*]"
    /\ (forall q, 2 <= q -> q < end_pos ->
                  substring q 2 "a [* b *] c *] d" <> "*]")
    /\ 9 <= length "a [* b *] c *] d".
Proof.
  exact (handle_comment_first_closer "a [* b *] c *] d" 2 9 eq_refl).
Defined.

(** [handle_comment] raises exactly when no [*]] occurs at or after the
    position it is given, and the error is always the same
    [ValueError]. *)
Theorem handle_comment_unterminated (source_code : string) (position : nat) :
  (handle_comment source_code position
   = Raise (ValueError "Unterminated comment block")
   <-> forall q, position <= q -> substring q 2 source_code <> "*]")
  /\ (forall e, handle_comment source_code position = Raise e ->
                e = ValueError "Unterminated comment block").
Proof.
  assert (Hne : "*]" <> "") by discriminate.
  pose proof (find_none_no_occurrence source_code "*]" position Hne) as Hfind.
  unfold handle_comment. cbn [length] in Hfind.
  destruct (find source_code "*]" position) as [e|]; split.
  - split; [discriminate|]. intros H. apply Hfind in H. discriminate.
  - discriminate.
  - split; [intros _; now apply Hfind | reflexivity].
  - intros e H. now injection H as <-.
Qed.

(** ** Operators *)

Lemma starts_operator_cases (c : ascii) :
  starts_operator c = true ->
  str_in (str1 c) operators = true \/ c = "!"%char.
Proof.
  destruct c as [[] [] [] [] [] [] [] []]; vm_compute; intros H;
    solve [discriminate H | now left | now right].
Qed.

Lemma get_operator_in_range (source_code : string) (position : nat) (c : ascii) :
  get position source_code = Some c ->
  exists lexeme, get_operator source_code position = Ok lexeme.
Proof.
  intros Hget. unfold get_operator, getitem. rewrite Hget. cbn [bind].
  destruct (str_in (substring position 2 source_code) operators);
    [eauto|].
  destruct (str_in (str1 c) operators); eauto.
Qed.

Lemma get_operator_nonempty (source_code : string) (position : nat) (c : ascii) :
  get position source_code = Some c ->
  str_in (str1 c) operators = true ->
  exists lexeme, get_operator source_code position = Ok lexeme /\ lexeme <> "".
Proof.
  intros Hget Hin. unfold get_operator, getitem. rewrite Hget. cbn [bind].
  rewrite Hin.
  destruct (str_in (substring position 2 source_code) operators) eqn:E.
  - eexists. split; [reflexivity|]. intros Hempty. now rewrite Hempty in E.
  - eexists. split; [reflexivity | discriminate].
Qed.

Lemma get_operator_bang (source_code : string) (position : nat) :
  get position source_code = Some "!"%char ->
  get_operator source_code position
  = Ok (match get (position + 1) source_code with
        | Some "="%char => "!="
        | _ => ""
        end).
Proof.
  intros Hget. unfold get_operator, getitem.
  rewrite substring_drop, (drop_get_some _ _ _ Hget), Hget.
  destruct (get (position + 1) source_code) as [d|] eqn:Hnext.
  - rewrite (drop_get_some _ _ _ Hnext).
    replace (substring 0 2 (String "!" (String d (drop (position + 1 + 1) source_code))))
      with (String "!" (String d ""))
      by (simpl; now destruct (drop (position + 1 + 1) source_code)).
    destruct (Ascii.eqb_spec d "="%char) as [->|Hne]; [reflexivity|].
    assert (Hd : (d =? "=")%char = false) by now apply Ascii.eqb_neq.
    cbn. rewrite Hd. cbn.
    destruct d as [[] [] [] [] [] [] [] []]; try reflexivity; now elim Hne.
  - rewrite (drop_get_none _ _ Hnext). reflexivity.
Qed.

(** Where the cursor stands on a character that starts an operator,
    [get_operator] does not raise; what it returns is either an entry
    of [operators] that is the slice of the text at the cursor, or the
    empty string, and it is the empty string exactly when the
    character is [!] and is not followed by [=]. *)
Theorem get_operator_at_operator_start
    (source_code : string) (position : nat) (char : ascii) :
  get position source_code = Some char ->
  starts_operator char = true ->
  exists lexeme,
    get_operator source_code position = Ok lexeme
    /\ (lexeme = "" <->
        char = "!"%char /\ get (position + 1) source_code <> Some "="%char)
    /\ (lexeme <> "" ->
        str_in lexeme operators = true
        /\ substring position (length lexeme) source_code = lexeme).
Proof.
  intros Hget Hop.
  destruct (get_operator_in_range _ _ _ Hget) as [lexeme Hlex].
  exists lexeme. split; [exact Hlex|]. split.
  - destruct (starts_operator_cases _ Hop) as [Hin| ->].
    + destruct (get_operator_nonempty _ _ _ Hget Hin) as (l & Hl & Hne).
      assert (l = lexeme) as -> by congruence.
      split; [contradiction|]. intros [-> _]. discriminate Hin.
    + rewrite (get_operator_bang _ _ Hget) in Hlex. injection Hlex as <-.
      destruct (get (position + 1) source_code) as [d|]; [|now repeat split].
      destruct (Ascii.eqb_spec d "="%char) as [->|Hne].
      * split; [discriminate | now intros [_ H]].
      * assert (E : match d with "="%char => "!=" | _ => "" end = "").
        { destruct d as [[] [] [] [] [] [] [] []]; try reflexivity.
          now elim Hne. }
        rewrite E. split; [|reflexivity]. intros _. split; [reflexivity|].
        congruence.
  - intros Hne. now destruct (get_operator_result _ _ _ Hlex).
Qed.

Lemma get_operator_at_operator_start_witness :
  exists lexeme,
    get_operator "a!b" 1 = Ok lexeme
    /\ (lexeme = "" <->
        "!"%char = "!"%char /\ get (1 + 1) "a!b" <> Some "="%char)
    /\ (lexeme <> "" ->
        str_in lexeme operators = true
        /\ substring 1 (length lexeme) "a!b" = lexeme).
Proof.
  exact (get_operator_at_operator_start "a!b" 1 "!"%char eq_refl eq_refl).
Defined.

(** Called at or past the end of the text, [get_operator] raises
    [IndexError]; inside the text it never raises. *)
Theorem get_operator_out_of_range (source_code : string) (position : nat) :
  (get_operator source_code position = Raise IndexError
   <-> length source_code <= position)
  /\ (forall e, get_operator source_code position = Raise e -> e = IndexError).
Proof.
  unfold get_operator, getitem.
  destruct (get position source_code) as [c|] eqn:Hget; cbn [bind].
  - assert (Hlt := get_some_lt _ _ _ Hget).
    destruct (str_in (substring position 2 source_code) operators);
      [|destruct (str_in (str1 c) operators)];
      (split; [split; [discriminate | lia] | discriminate]).
  - assert (Hge := get_none_ge _ _ Hget).
    rewrite substring_drop, (drop_get_none _ _ Hget). cbn.
    split; [tauto | congruence].
Qed.

(** ** Progress: when a pass of the body advances *)

Lemma number_starts_with_digit (source_code : string) (position : nat) (c : ascii) :
  get position source_code = Some c ->
  is_digit c = true ->
  get 0 (fst (number_at (drop position source_code))) = Some c.
Proof.
  intros Hget Hd.
  pose proof (digits_start_with_digit _ _ _ Hget Hd) as H0.
  destruct (number_at_cases (drop position source_code))
    as [(rest & _ & ->)|(_ & ->)]; cbn [fst];
    [now apply get_append_l | exact H0].
Qed.

Lemma get_zero_length (s : string) (c : ascii) : get 0 s = Some c -> 1 <= length s.
Proof. destruct s; simpl; [discriminate | lia]. Qed.

Lemma bracket_class :
  isspace "[" = false /\ is_letter "[" = false /\ is_digit "[" = false
  /\ starts_operator "[" = false /\ str_in "[" separators = false.
Proof. now vm_compute. Qed.

(** At a position that is not stuck, a pass of the body either raises
    or moves the cursor forward. *)
Lemma body_progress (source_code : string) (position : nat)
    (tokens : list token) (c : ascii) :
  get position source_code = Some c ->
  stuck_at source_code position = false ->
  (exists e, lexer_body source_code (position, tokens) = Raise e)
  \/ (exists position' tokens',
        lexer_body source_code (position, tokens) = Ok (position', tokens')
        /\ position < position').
Proof.
  intros Hget Hstuck. unfold stuck_at in Hstuck. rewrite Hget in Hstuck.
  destruct (Ascii.eqb_spec c "!"%char) as [->|Hbang].
  { right. rewrite (body_operator _ _ tokens _ Hget eq_refl).
    rewrite (get_operator_bang _ _ Hget).
    destruct (get (position + 1) source_code) as [next|]; [|discriminate].
    apply negb_false_iff, Ascii.eqb_eq in Hstuck. subst next.
    cbn [bind length]. do 2 eexists. split; [reflexivity | lia]. }
  destruct (Ascii.eqb_spec c "["%char) as [->|Hbracket].
  { destruct bracket_class as (Hsp & _).
    unfold lexer_body, getitem. rewrite Hget. cbn [bind]. rewrite Hsp.
    rewrite Ascii.eqb_refl.
    destruct (get (position + 1) source_code) as [next|]; cbn [bind];
      [|left; eauto].
    apply negb_false_iff in Hstuck. rewrite Hstuck.
    destruct (handle_comment source_code position) as [p|e] eqn:E;
      cbn [bind]; [right | left; eauto].
    apply handle_comment_after in E.
    do 2 eexists. split; [reflexivity | lia]. }
  right. unfold unclassified in Hstuck. apply negb_false_iff in Hstuck.
  destruct (isspace c) eqn:Hsp.
  { unfold lexer_body, getitem. rewrite Hget. cbn [bind]. rewrite Hsp.
    do 2 eexists. split; [reflexivity | lia]. }
  destruct (is_letter c) eqn:Hl.
  { rewrite (body_letter _ _ tokens _ Hget Hl).
    pose proof (get_zero_length _ _ (word_starts_with_letter _ _ _ Hget Hl)).
    do 2 eexists. split; [reflexivity | lia]. }
  destruct (is_digit c) eqn:Hd.
  { pose proof (body_digit _ _ tokens _ Hget Hd) as Hb.
    pose proof (get_zero_length _ _ (number_starts_with_digit _ _ _ Hget Hd)).
    destruct (number_at (drop position source_code)) as [lexeme is_real].
    rewrite Hb. cbn [fst] in *.
    do 2 eexists. split; [reflexivity | lia]. }
  destruct (starts_operator c) eqn:Ho.
  { rewrite (body_operator _ _ tokens _ Hget Ho).
    destruct (starts_operator_cases _ Ho) as [Hin | ->]; [|now elim Hbang].
    destruct (get_operator_nonempty _ _ _ Hget Hin) as (lexeme & -> & Hne).
    cbn [bind]. do 2 eexists. split; [reflexivity|].
    destruct lexeme; [now elim Hne | simpl; lia]. }
  cbn [orb] in Hstuck.
  unfold lexer_body, getitem. rewrite Hget. cbn [bind]. rewrite Hsp.
  apply Ascii.eqb_neq in Hbracket. rewrite Hbracket. cbn [bind].
  rewrite Hl, Hd, Ho, Hstuck.
  do 2 eexists. split; [reflexivity | lia].
Qed.

(** At a stuck position the body returns with the cursor unmoved. *)
Lemma stuck_body (source_code : string) (position : nat) (tokens : list token) :
  stuck_at source_code position = true ->
  exists tokens',
    lexer_body source_code (position, tokens) = Ok (position, tokens').
Proof.
  unfold stuck_at. intros Hstuck.
  destruct (get position source_code) as [c|] eqn:Hget; [|discriminate].
  destruct (Ascii.eqb_spec c "!"%char) as [->|Hbang].
  { rewrite (body_operator _ _ tokens _ Hget eq_refl).
    rewrite (get_operator_bang _ _ Hget).
    assert (E : match get (position + 1) source_code with
                | Some "="%char => "!="
                | _ => ""
                end = "").
    { destruct (get (position + 1) source_code) as [next|]; [|reflexivity].
      apply negb_true_iff, Ascii.eqb_neq in Hstuck.
      destruct next as [[] [] [] [] [] [] [] []]; try reflexivity.
      now elim Hstuck. }
    rewrite E. cbn [bind length]. rewrite Nat.add_0_r. eauto. }
  destruct (Ascii.eqb_spec c "["%char) as [->|Hbracket].
  { destruct (get (position + 1) source_code) as [next|] eqn:Hnext;
      [|discriminate].
    apply negb_true_iff in Hstuck.
    unfold lexer_body, getitem. rewrite Hget, Hnext. cbn [bind].
    rewrite Ascii.eqb_refl. cbn [bind]. rewrite Hstuck. cbn. eauto. }
  unfold unclassified in Hstuck. apply negb_true_iff in Hstuck.
  apply orb_false_iff in Hstuck as [Hstuck Hsep].
  apply orb_false_iff in Hstuck as [Hstuck Hop].
  apply orb_false_iff in Hstuck as [Hstuck Hd].
  apply orb_false_iff in Hstuck as [Hsp Hl].
  unfold lexer_body, getitem. rewrite Hget. cbn [bind].
  apply Ascii.eqb_neq in Hbracket. rewrite Hsp, Hbracket. cbn [bind].
  rewrite Hl, Hd, Hop, Hsep. eauto.
Qed.

Lemma stuck_in_range (source_code : string) (position : nat) :
  stuck_at source_code position = true -> position < length source_code.
Proof.
  unfold stuck_at. intros H.
  destruct (get position source_code) as [c|] eqn:Hget; [|discriminate].
  now apply get_some_lt in Hget.
Qed.

Lemma stuck_hangs (source_code : string) (position : nat) :
  stuck_at source_code position = true ->
  forall fuel tokens, lexer_loop fuel source_code (position, tokens) = None.
Proof.
  intros Hstuck. apply stuck_position_hangs.
  - now apply stuck_in_range.
  - intros tokens. now apply stuck_body.
Qed.

(** ** Runs of the loop *)

Lemma lexer_iter_trans (source_code : string) (st1 st2 st3 : state) :
  lexer_iter source_code st1 st2 ->
  lexer_iter source_code st2 st3 ->
  lexer_iter source_code st1 st3.
Proof.
  induction 1 as [st | st st' st'' Hlt Hbody _ IH]; [trivial|].
  intros H. exact (iter_next _ _ _ _ Hlt Hbody (IH H)).
Qed.

(** A run entered later ends as the run entered earlier does. *)
Lemma lexer_iter_result (source_code : string) (st st' : state) :
  lexer_iter source_code st st' ->
  forall fuel r,
    lexer_loop fuel source_code st' = Some r ->
    exists fuel', lexer_loop fuel' source_code st = Some r.
Proof.
  induction 1 as [st | st st1 st2 Hlt Hbody _ IH]; intros fuel r Hr.
  - now exists fuel.
  - destruct (IH fuel r Hr) as [fuel' Hfuel'].
    exists (S fuel'). cbn [lexer_loop].
    apply Nat.ltb_lt in Hlt. now rewrite Hlt, Hbody.
Qed.

Lemma lexer_iter_hangs (source_code : string) (st st' : state) :
  lexer_iter source_code st st' ->
  (forall fuel, lexer_loop fuel source_code st' = None) ->
  forall fuel, lexer_loop fuel source_code st = None.
Proof.
  induction 1 as [st | st st1 st2 Hlt Hbody _ IH]; intros Hhang fuel.
  - apply Hhang.
  - destruct fuel as [|fuel]; [reflexivity|]. cbn [lexer_loop].
    apply Nat.ltb_lt in Hlt. rewrite Hlt, Hbody. now apply IH.
Qed.

(** A run still going after more passes than there are characters left
    has reached a stuck position. *)
Lemma long_run_is_stuck (source_code : string) :
  forall fuel position tokens,
    length source_code - position < fuel ->
    lexer_loop fuel source_code (position, tokens) = None ->
    exists position' tokens',
      lexer_iter source_code (position, tokens) (position', tokens')
      /\ stuck_at source_code position' = true.
Proof.
  induction fuel as [|fuel IH]; intros position tokens Hfuel Hnone; [lia|].
  cbn [lexer_loop fst snd] in Hnone.
  destruct (position <? length source_code)%nat eqn:Hlt; [|discriminate].
  apply Nat.ltb_lt in Hlt.
  destruct (stuck_at source_code position) eqn:Hstuck.
  { exists position, tokens. split; [constructor | exact Hstuck]. }
  destruct (get position source_code) as [c|] eqn:Hget;
    [|apply get_none_ge in Hget; lia].
  destruct (body_progress _ _ tokens _ Hget Hstuck)
    as [[e He]|(position' & tokens' & Hbody & Hadv)];
    rewrite ?He, ?Hbody in Hnone; [discriminate|].
  destruct (IH position' tokens') as (p & t & Hiter & Hp);
    [lia | exact Hnone |].
  exists p, t. split; [|exact Hp].
  exact (iter_next _ (position, tokens) _ _ Hlt Hbody Hiter).
Qed.

(** The scan never returns exactly when the cursor reaches a stuck
    position: a [!] not followed by [=], a [[] followed by something
    other than [*], or a character that is neither whitespace, a letter,
    a digit, the start of an operator nor a separator. *)
Theorem lexer_hangs_iff_stuck (source_code : string) :
  lexer_hangs source_code <->
  exists position tokens,
    lexer_iter source_code (0, []) (position, tokens)
    /\ stuck_at source_code position = true.
Proof.
  split.
  - intros Hhang.
    apply (long_run_is_stuck source_code (S (length source_code)) 0 []);
      [lia | exact (Hhang (S (length source_code)))].
  - intros (position & tokens & Hiter & Hstuck) fuel.
    apply (lexer_iter_hangs _ _ _ Hiter).
    intros fuel'. now apply stuck_hangs.
Qed.

(** A scan that ends, by returning or by raising, ends within
    [len(source_code) + 1] tests of the loop condition; one that is
    still running then runs for ever. *)
Theorem lexer_ends_within_length (source_code : string) :
  (forall fuel r,
      lexer fuel source_code = Some r ->
      lexer (S (length source_code)) source_code = Some r)
  /\ (lexer (S (length source_code)) source_code = None ->
      lexer_hangs source_code).
Proof.
  assert (Hlong : lexer (S (length source_code)) source_code = None ->
                  lexer_hangs source_code).
  { intros Hnone fuel.
    destruct (long_run_is_stuck source_code (S (length source_code)) 0 [])
      as (p & t & Hiter & Hstuck); [lia | exact Hnone |].
    apply (lexer_iter_hangs _ _ _ Hiter). intros fuel'. now apply stuck_hangs. }
  split; [|exact Hlong].
  intros fuel r Hr.
  destruct (lexer (S (length source_code)) source_code) as [r'|] eqn:E.
  - f_equal. exact (lexer_deterministic _ _ _ _ _ E Hr).
  - rewrite (Hlong eq_refl fuel) in Hr. discriminate.
Qed.

Lemma lexer_ends_within_length_witness :
  lexer 4 "a+b" = Some (Ok [("identifier", "a"); ("operator", "+");
                            ("identifier", "b")]).
Proof.
  exact (proj1 (lexer_ends_within_length "a+b") 100 _ eq_refl).
Defined.

(** ** Raising *)

Lemma handle_comment_raises (source_code : string) (position : nat) (e : exn) :
  handle_comment source_code position = Raise e
  <-> (e = ValueError "Unterminated comment block"
       /\ forall q, position <= q -> substring q 2 source_code <> "*]").
Proof.
  assert (Hne : "*]" <> "") by discriminate.
  pose proof (find_none_no_occurrence source_code "*]" position Hne) as Hfind.
  unfold handle_comment. cbn [length] in Hfind.
  destruct (find source_code "*]" position) as [end_pos|]; split.
  - discriminate.
  - intros [_ H]. apply Hfind in H. discriminate.
  - intros [= <-]. split; [reflexivity | now apply Hfind].
  - now intros [-> _].
Qed.

Lemma lexer_body_raises (source_code : string) (position : nat)
    (tokens : list token) (e : exn) :
  position < length source_code ->
  (lexer_body source_code (position, tokens) = Raise e
   <-> raises_at source_code position e).
Proof.
  intros Hlt. unfold raises_at.
  assert (Hget : exists c, get position source_code = Some c).
  { destruct (get position source_code) as [c|] eqn:E; [eauto|].
    apply get_none_ge in E. lia. }
  destruct Hget as [c Hget].
  destruct bracket_class as (Hsp & _).
  split.
  - intros H. unfold lexer_body, getitem in H. rewrite Hget in H.
    cbn [bind] in H.
    destruct (isspace c); [discriminate|].
    destruct (Ascii.eqb_spec c "["%char) as [->|Hbracket].
    + split; [exact Hget|].
      destruct (get (position + 1) source_code) as [next|] eqn:Hnext;
        cbn [bind] in H.
      * destruct (Ascii.eqb_spec next "*"%char) as [->|Hstar].
        -- left. split; [reflexivity|].
           destruct (handle_comment source_code position) as [p|e'] eqn:E;
             cbn [bind] in H; [discriminate|].
           injection H as <-. now apply handle_comment_raises in E.
        -- cbn in H. discriminate.
      * right. injection H as <-. apply get_none_ge in Hnext.
        split; [lia | reflexivity].
    + exfalso. cbn [bind] in H.
      destruct (is_letter c).
      { cbv zeta in H. destruct (str_in _ keywords); discriminate. }
      destruct (is_digit c).
      { destruct (get_number source_code position) as [l [|]]; discriminate. }
      destruct (starts_operator c).
      { destruct (get_operator_in_range _ _ _ Hget) as [l Hl].
        rewrite Hl in H. discriminate. }
      destruct (str_in (str1 c) separators); discriminate.
  - intros [Hc Hcases].
    unfold lexer_body, getitem. rewrite Hc. cbn [bind]. rewrite Hsp.
    rewrite Ascii.eqb_refl.
    destruct Hcases as [(Hnext & Hnone & ->)|(Hend & ->)].
    + rewrite Hnext. cbn [bind]. rewrite Ascii.eqb_refl.
      assert (E : handle_comment source_code position
                  = Raise (ValueError "Unterminated comment block"))
        by now apply handle_comment_raises.
      now rewrite E.
    + rewrite (get_ge_none source_code (position + 1)) by lia. reflexivity.
Qed.

Lemma raise_is_reached (source_code : string) (e : exn) :
  forall fuel position tokens,
    lexer_loop fuel source_code (position, tokens) = Some (Raise e) ->
    exists position' tokens',
      lexer_iter source_code (position, tokens) (position', tokens')
      /\ raises_at source_code position' e.
Proof.
  induction fuel as [|fuel IH]; intros position tokens H; [discriminate|].
  cbn [lexer_loop fst snd] in H.
  destruct (position <? length source_code)%nat eqn:Hlt; [|discriminate].
  apply Nat.ltb_lt in Hlt.
  destruct (lexer_body source_code (position, tokens))
    as [[position1 tokens1]|e'] eqn:Hbody.
  - destruct (IH _ _ H) as (p & t & Hiter & Hp).
    exists p, t. split; [|exact Hp].
    exact (iter_next _ (position, tokens) _ _ Hlt Hbody Hiter).
  - injection H as ->. exists position, tokens.
    split; [constructor | now apply (lexer_body_raises _ _ tokens)].
Qed.

(** The scan raises exactly when the cursor reaches a [[] that is the
    last character of the text, which gives [IndexError], or a [[*]
    after which no [*]] occurs, which gives the [ValueError] for an
    unterminated comment; it raises nothing else. *)
Theorem lexer_raises_iff (source_code : string) (e : exn) :
  lexer_raises source_code e <->
  exists position tokens,
    lexer_iter source_code (0, []) (position, tokens)
    /\ get position source_code = Some "["%char
    /\ ((get (position + 1) source_code = Some "*"%char
         /\ (forall q, position <= q -> substring q 2 source_code <> "*]")
         /\ e = ValueError "Unterminated comment block")
        \/ (position + 1 = length source_code /\ e = IndexError)).
Proof.
  split.
  - intros [fuel H]. exact (raise_is_reached _ _ _ _ _ H).
  - intros (position & tokens & Hiter & Hat).
    assert (Hlt : position < length source_code)
      by (destruct Hat as [Hc _]; now apply get_some_lt in Hc).
    apply (lexer_body_raises _ _ tokens _ Hlt) in Hat.
    apply (lexer_iter_result _ _ _ Hiter 1 (Raise e)).
    cbn [lexer_loop fst]. apply Nat.ltb_lt in Hlt. now rewrite Hlt, Hat.
Qed.

(** ** Plain text *)

Lemma plain_char_class (c : ascii) :
  plain_char c = true ->
  (c =? "!")%char = false /\ (c =? "[")%char = false /\ unclassified c = false.
Proof. all_chars c. Qed.

Lemma substring_head (s : string) (n m : nat) (a : ascii) (t : string) :
  substring n m s = String a t -> get n s = Some a.
Proof.
  intros H. rewrite substring_drop in H.
  rewrite <- (Nat.add_0_r n), <- get_drop.
  destruct (drop n s) as [|b u]; destruct m; simpl in *; congruence.
Qed.

Lemma forall_chars_get (p : ascii -> bool) (s : string) :
  forall_chars p s = true -> forall k c, get k s = Some c -> p c = true.
Proof.
  induction s as [|a s IH]; intros H k c Hget; simpl in *; [discriminate|].
  apply andb_true_iff in H as [Ha Hs].
  destruct k as [|k]; [now injection Hget as <- | eauto].
Qed.

Section PlainText.

Variable source_code : string.
Hypothesis Hplain : plain_text source_code.

Lemma plain_get (k : nat) (c : ascii) :
  get k source_code = Some c -> plain_char c = true.
Proof. now apply forall_chars_get. Qed.

Lemma plain_not_stuck (position : nat) : stuck_at source_code position = false.
Proof.
  unfold stuck_at.
  destruct (get position source_code) as [c|] eqn:Hget; [|reflexivity].
  destruct (plain_char_class c (plain_get _ _ Hget)) as (-> & -> & ->).
  reflexivity.
Qed.

Lemma plain_no_bracket (position : nat) :
  get position source_code <> Some "["%char.
Proof.
  intros Hget. apply plain_get in Hget. discriminate.
Qed.

Lemma plain_no_comment (position : nat) :
  substring position 2 source_code <> "[*".
Proof.
  intros H. apply substring_head in H. now apply plain_no_bracket in H.
Qed.

Lemma plain_loop_returns :
  forall n position tokens,
    length source_code - position <= n ->
    exists out, lexer_loop (S n) source_code (position, tokens) = Some (Ok out).
Proof.
  induction n as [|n IH]; intros position tokens Hn;
    cbn [lexer_loop fst snd];
    destruct (position <? length source_code)%nat eqn:Hlt; eauto;
    apply Nat.ltb_lt in Hlt; [lia|].
  destruct (get position source_code) as [c|] eqn:Hget;
    [|apply get_none_ge in Hget; lia].
  destruct (body_progress _ _ tokens _ Hget (plain_not_stuck position))
    as [[e He]|(position' & tokens' & Hbody & Hadv)].
  - apply (lexer_body_raises _ _ _ _ Hlt) in He. destruct He as [Hc _].
    now apply plain_no_bracket in Hc.
  - rewrite Hbody. apply IH. lia.
Qed.

End PlainText.

(** On plain text, made of whitespace, letters, digits, the characters
    [+ - * / = < >] and the separators, the scan returns, and the
    lexemes of the returned tokens, in order, are the text with its
    whitespace removed. *)
Theorem plain_text_is_scanned (source_code : string) :
  plain_text source_code ->
  exists tokens,
    lexer_returns source_code tokens
    /\ lexemes tokens = without_spaces source_code.
Proof.
  intros Hplain.
  destruct (plain_loop_returns _ Hplain (length source_code) 0 [])
    as [tokens Htokens]; [lia|].
  assert (Hret : lexer_returns source_code tokens)
    by now exists (S (length source_code)).
  exists tokens. split; [exact Hret|].
  apply (lexer_loop_reads source_code (plain_no_comment _ Hplain) _ 0 [] _
           Htokens).
  simpl. now rewrite substring_none.
Qed.

Lemma plain_text_is_scanned_witness :
  exists tokens,
    lexer_returns "while (x <= 10) x = x + 1;" tokens
    /\ lexemes tokens = "while(x<=10)x=x+1;".
Proof.
  exact (plain_text_is_scanned "while (x <= 10) x = x + 1;" eq_refl).
Defined.

(** ** The passes of the body, one case each *)

Lemma lexer_body_pass (source_code : string) (position position' : nat)
    (tokens tokens' : list token) (c : ascii) :
  get position source_code = Some c ->
  lexer_body source_code (position, tokens) = Ok (position', tokens') ->
  exists emitted,
    tokens' = (tokens ++ emitted)%list
    /\ pass source_code position c position' emitted.
Proof.
  intros Hget H. unfold lexer_body, getitem in H. rewrite Hget in H.
  cbn [bind] in H.
  destruct (isspace c) eqn:Hsp.
  { injection H as <- <-. exists []. rewrite app_nil_r.
    split; [reflexivity | now constructor]. }
  assert (Hrest :
    forall opens : bool,
      (opens = true ->
       c = "["%char /\ get (position + 1) source_code = Some "*"%char) ->
      (opens = false -> c = "["%char ->
       exists next,
         get (position + 1) source_code = Some next /\ next <> "*"%char) ->
      (if opens then
         position' <- handle_comment source_code position ;;
         Ok (position', tokens)
       else if is_letter c then
         let lexeme := get_identifier source_code position in
         if str_in lexeme keywords
         then Ok (position + length lexeme, (tokens ++ [("keyword", lexeme)])%list)
         else Ok (position + length lexeme, (tokens ++ [("identifier", lexeme)])%list)
       else if is_digit c then
         let '(lexeme, is_real) := get_number source_code position in
         if is_real
         then Ok (position + length lexeme, (tokens ++ [("real", lexeme)])%list)
         else Ok (position + length lexeme, (tokens ++ [("integer", lexeme)])%list)
       else if starts_operator c then
         lexeme <- get_operator source_code position ;;
         Ok (position + length lexeme, (tokens ++ [("operator", lexeme)])%list)
       else if str_in (str1 c) separators then
         Ok (position + 1, (tokens ++ [("separator", str1 c)])%list)
       else Ok (position, tokens)) = Ok (position', tokens') ->
      exists emitted,
        tokens' = (tokens ++ emitted)%list
        /\ pass source_code position c position' emitted).
  { clear H. intros [|] Hopens Hclosed H.
    - destruct (Hopens eq_refl) as [-> Hnext].
      destruct (handle_comment source_code position) as [p|] eqn:E;
        cbn [bind] in H; [|discriminate].
      injection H as <- <-. exists []. rewrite app_nil_r.
      split; [reflexivity | now apply pass_comment].
    - destruct (is_letter c) eqn:Hl.
      { cbv zeta in H. rewrite get_identifier_spec in H.
        destruct (str_in _ keywords) eqn:Hk; injection H as <- <-;
          (eexists; split; [reflexivity|]);
          pose proof (pass_word source_code position c _ Hl eq_refl) as Hp;
          unfold word_tag in Hp; rewrite Hk in Hp; exact Hp. }
      destruct (is_digit c) eqn:Hd.
      { rewrite get_number_spec in H.
        destruct (number_at (drop position source_code))
          as [lexeme is_real] eqn:Hn.
        exists [(number_tag is_real, lexeme)].
        destruct is_real; injection H as <- <-;
          (split; [reflexivity | now apply pass_number]). }
      destruct (starts_operator c) eqn:Ho.
      { destruct (get_operator source_code position) as [lexeme|] eqn:E;
          cbn [bind] in H; [|discriminate].
        injection H as <- <-. eexists. split; [reflexivity|].
        now apply pass_operator. }
      destruct (str_in (str1 c) separators) eqn:Hs; injection H as <- <-.
      + eexists. split; [reflexivity | now apply pass_separator].
      + exists []. rewrite app_nil_r. split; [reflexivity|].
        apply pass_nothing; [|now apply Hclosed].
        unfold unclassified. now rewrite Hsp, Hl, Hd, Ho, Hs. }
  destruct (Ascii.eqb_spec c "["%char) as [->|Hbracket];
    cbn [bind] in H;
    [|apply (Hrest false); [discriminate | contradiction | exact H]].
  destruct (get (position + 1) source_code) as [next|] eqn:Hnext;
    cbn [bind] in H; [|discriminate].
  apply (Hrest (next =? "*")%char); [| |exact H].
  - intros E. apply Ascii.eqb_eq in E. now subst next.
  - intros E _. apply Ascii.eqb_neq in E. now exists next.
Qed.

(** ** The cursor stays inside the text *)

Lemma length_take_while (p : ascii -> bool) (s : string) :
  length (take_while p s) <= length s.
Proof.
  induction s as [|a s IH]; simpl; [lia|].
  destruct (p a); simpl; lia.
Qed.

Lemma handle_comment_in_range (source_code : string) (position position' : nat) :
  handle_comment source_code position = Ok position' ->
  position' <= length source_code.
Proof.
  unfold handle_comment, find. intros H.
  destruct (index position "*]" source_code) as [e|] eqn:E; [|discriminate].
  injection H as <-. apply index_correct1 in E.
  apply (slice_in_range source_code e 2 "*]" E). discriminate.
Qed.

Lemma pass_in_range (source_code : string) (position position' : nat)
    (c : ascii) (emitted : list token) :
  get position source_code = Some c ->
  pass source_code position c position' emitted ->
  position' <= length source_code.
Proof.
  intros Hget Hpass. pose proof (get_some_lt _ _ _ Hget) as Hlt.
  destruct Hpass as [ _ | p _ _ Hc | w _ -> | l r _ Hn | l _ Ho | _ | _ _ ];
    try lia.
  - now apply handle_comment_in_range in Hc.
  - pose proof (length_take_while ident_char (drop position source_code)).
    rewrite length_drop in *. lia.
  - destruct (number_at_prefix (drop position source_code)) as [rest Hrest].
    rewrite Hn in Hrest. cbn [fst] in Hrest.
    apply (f_equal length) in Hrest.
    rewrite length_append, length_drop in Hrest. lia.
  - destruct (get_operator_result _ _ _ Ho) as [->|[Hin Hslice]];
      [simpl; lia|].
    apply (slice_in_range _ _ _ _ Hslice). intros ->. discriminate Hin.
Qed.

(** From a start inside the text the cursor never passes the end of
    the text, however many iterations are run. *)
Theorem cursor_stays_in_text (source_code : string) (st st' : state) :
  lexer_iter source_code st st' ->
  fst st <= length source_code ->
  fst st' <= length source_code.
Proof.
  induction 1 as [st | [position tokens] [position1 tokens1] st2
                         Hlt Hbody _ IH]; [trivial|].
  intros _. apply IH. cbn [fst] in *.
  destruct (get position source_code) as [c|] eqn:Hget;
    [|apply get_none_ge in Hget; lia].
  destruct (lexer_body_pass _ _ _ _ _ _ Hget Hbody) as (emitted & _ & Hpass).
  exact (pass_in_range _ _ _ _ _ Hget Hpass).
Qed.

Lemma cursor_stays_in_text_witness :
  lexer_iter "x=[**]" (0, []) (6, [("identifier", "x"); ("operator", "=")])
  /\ 6 <= length "x=[**]".
Proof.
  assert (H : lexer_iter "x=[**]" (0, [])
                (6, [("identifier", "x"); ("operator", "=")])).
  { apply iter_next with (st' := (1, [("identifier", "x")]));
      [simpl; lia | reflexivity |].
    apply iter_next
      with (st' := (2, [("identifier", "x"); ("operator", "=")]));
      [simpl; lia | reflexivity |].
    apply iter_next
      with (st' := (6, [("identifier", "x"); ("operator", "=")]));
      [simpl; lia | reflexivity |].
    apply iter_here. }
  split; [exact H|].
  apply (cursor_stays_in_text "x=[**]" _ _ H). simpl. lia.
Defined.

(** ** The tokens of a scan that returns *)

Lemma forall_chars_take_while (p : ascii -> bool) (s : string) :
  forall_chars p (take_while p s) = true.
Proof.
  induction s as [|a s IH]; simpl; [reflexivity|].
  destruct (p a) eqn:E; simpl; [now rewrite E | reflexivity].
Qed.

Lemma take_while_append_stop (p : ascii -> bool) (s t : string) (c : ascii) :
  p c = false ->
  take_while p (take_while p s ++ String c t) = take_while p s.
Proof.
  intros Hc. induction s as [|a s IH]; simpl.
  - now rewrite Hc.
  - destruct (p a) eqn:E; simpl; [now rewrite E, IH | now rewrite Hc].
Qed.

Lemma drop_append (s t : string) : drop (length s) (s ++ t) = t.
Proof. induction s as [|a s IH]; simpl; [now destruct t | exact IH]. Qed.

Lemma starts_with_get (p : ascii -> bool) (s : string) (c : ascii) :
  get 0 s = Some c -> p c = true -> starts_with p s = true.
Proof. destruct s; simpl; [discriminate | now intros [= ->]]. Qed.

Lemma real_shape_number (s : string) (lexeme : string) (c : ascii) :
  get 0 (take_while isdigit s) = Some c ->
  number_at s = (lexeme, true) ->
  real_shape lexeme = true.
Proof.
  intros H0 Hn.
  destruct (number_at_cases s) as [(rest & _ & E)|(_ & E)];
    rewrite E in Hn; [|discriminate].
  injection Hn as <-. unfold real_shape.
  change (take_while isdigit s ++ "." ++ take_while isdigit rest)
    with (take_while isdigit s ++ String "." (take_while isdigit rest)).
  rewrite take_while_append_stop by reflexivity.
  rewrite drop_append, forall_chars_take_while.
  destruct (take_while isdigit s); [discriminate | reflexivity].
Qed.

Lemma token_ok_equations (lexeme : string) :
  token_ok ("keyword", lexeme) = str_in lexeme keywords
  /\ token_ok ("identifier", lexeme)
     = negb (str_in lexeme keywords)
       && starts_with is_letter lexeme && forall_chars ident_char lexeme
  /\ token_ok ("integer", lexeme)
     = starts_with isdigit lexeme && forall_chars isdigit lexeme
  /\ token_ok ("real", lexeme) = real_shape lexeme
  /\ token_ok ("operator", lexeme) = str_in lexeme operators
  /\ token_ok ("separator", lexeme) = str_in lexeme separators.
Proof. repeat split. Qed.

(** A token appended by a pass fits its category, unless it is the
    operator token with the empty lexeme. *)
Lemma pass_token_ok (source_code : string) (position position' : nat)
    (c : ascii) (emitted : list token) :
  get position source_code = Some c ->
  pass source_code position c position' emitted ->
  Forall (fun t => snd t = "" \/ token_ok t = true) emitted.
Proof.
  intros Hget Hpass.
  destruct Hpass as [ _ | p _ _ _ | w Hl -> | l r Hd Hn | l _ Ho | Hs | _ _ ];
    first [apply Forall_nil | apply Forall_cons; [|apply Forall_nil]];
    cbn [snd];
    match goal with
    | |- _ \/ token_ok (_, ?l) = true =>
        destruct (token_ok_equations l) as (Ek & Ei & En & Er & Eo & Es)
    end.
  - right. unfold word_tag.
    pose proof (word_starts_with_letter _ _ _ Hget Hl) as H0.
    destruct (str_in _ keywords) eqn:Hk; [now rewrite Ek|].
    rewrite Ei, ?Hk, (starts_with_get _ _ _ H0 Hl), forall_chars_take_while.
    reflexivity.
  - right. unfold number_tag.
    pose proof (digits_start_with_digit _ _ _ Hget Hd) as H0.
    destruct r.
    + rewrite Er. exact (real_shape_number _ _ _ H0 Hn).
    + destruct (number_at_cases (drop position source_code))
        as [(rest & _ & E)|(_ & E)]; rewrite E in Hn; [discriminate|].
      injection Hn as <-.
      now rewrite En, (starts_with_get isdigit _ _ H0 Hd),
        forall_chars_take_while.
  - destruct (get_operator_result _ _ _ Ho) as [->|[Hin _]];
      [now left | right; now rewrite Eo].
  - right. now rewrite Es.
Qed.

Lemma lexer_loop_tokens_ok (source_code : string) :
  forall fuel st out,
    lexer_loop fuel source_code st = Some (Ok out) ->
    Forall (fun t => snd t = "" \/ token_ok t = true) (snd st) ->
    Forall (fun t => snd t = "" \/ token_ok t = true) out.
Proof.
  induction fuel as [|fuel IH]; intros [position tokens] out H Hall;
    [discriminate|].
  cbn [lexer_loop fst snd] in H.
  destruct (position <? length source_code)%nat eqn:Hlt;
    [|now injection H as <-].
  apply Nat.ltb_lt in Hlt.
  destruct (lexer_body source_code (position, tokens))
    as [[position' tokens']|e] eqn:Hbody; [|discriminate].
  apply (IH _ _ H). cbn [snd].
  destruct (get position source_code) as [c|] eqn:Hget;
    [|apply get_none_ge in Hget; lia].
  destruct (lexer_body_pass _ _ _ _ _ _ Hget Hbody) as (emitted & -> & Hpass).
  apply Forall_app. split; [exact Hall|].
  exact (pass_token_ok _ _ _ _ _ Hget Hpass).
Qed.

(** Every token of a list the scan returns fits its category: a
    keyword is one of the reserved words; an identifier is not, starts
    with a letter and consists of alphanumeric characters and
    underscores; an integer is a non-empty run of digits; a real is
    digits, a point, digits, with at least one digit before the point;
    an operator is an entry of [operators]; a separator is an entry of
    [separators]. *)
Theorem returned_tokens_fit_their_category
    (source_code : string) (tokens : list token) :
  lexer_returns source_code tokens ->
  Forall (fun t => token_ok t = true) tokens.
Proof.
  intros Hret.
  pose proof (returned_lexemes_nonempty _ _ Hret) as Hne.
  destruct Hret as [fuel H].
  apply lexer_loop_tokens_ok in H; [|constructor].
  rewrite Forall_forall in *. intros t Ht.
  destruct (H t Ht) as [Hempty|Hok]; [|exact Hok].
  now elim (Hne t Ht).
Qed.

Lemma returned_tokens_fit_their_category_witness :
  Forall (fun t => token_ok t = true)
    [("keyword", "if"); ("separator", "("); ("identifier", "x_1");
     ("operator", ">="); ("real", "2."); ("separator", ")")].
Proof.
  apply (returned_tokens_fit_their_category "if (x_1 >= 2.)").
  now exists 20.
Defined.

(** ** Texts without comments *)

(** If the scan of a text that contains no [[*] returns, the lexemes
    of the returned tokens, in order, are the text with its whitespace
    removed: nothing is dropped, added or reordered. *)
Theorem comment_free_scan_reconstructs
    (source_code : string) (tokens : list token) :
  find source_code "[*" 0 = None ->
  lexer_returns source_code tokens ->
  lexemes tokens = without_spaces source_code.
Proof.
  intros Hfind [fuel H].
  assert (Hopen : forall position, substring position 2 source_code <> "[*").
  { intros position.
    apply (proj1 (find_none_no_occurrence source_code "[*" 0 ltac:(discriminate))
             Hfind position).
    lia. }
  apply (lexer_loop_reads _ Hopen _ _ _ _ H).
  simpl. now rewrite substring_none.
Qed.

Lemma comment_free_scan_reconstructs_witness :
  lexemes [("identifier", "a"); ("separator", "{"); ("real", "1.5");
           ("operator", "*"); ("separator", ")")]
  = without_spaces " a { 1.5 *)".
Proof.
  apply (comment_free_scan_reconstructs " a { 1.5 *)"); [reflexivity|].
  now exists 20.
Defined.

(** On a text of whitespace only, the empty text included, the scan
    returns the empty token list. *)
Theorem whitespace_only_scans_to_nothing (source_code : string) :
  forall_chars isspace source_code = true ->
  forall tokens, lexer_returns source_code tokens <-> tokens = [].
Proof.
  intros Hws.
  assert (Hloop : forall n position tokens,
             length source_code - position <= n ->
             lexer_loop (S n) source_code (position, tokens) = Some (Ok tokens)).
  { induction n as [|n IH]; intros position tokens Hn;
      cbn [lexer_loop fst snd];
      destruct (position <? length source_code)%nat eqn:Hlt;
      try reflexivity; apply Nat.ltb_lt in Hlt; [lia|].
    destruct (get position source_code) as [c|] eqn:Hget;
      [|apply get_none_ge in Hget; lia].
    unfold lexer_body, getitem. rewrite Hget. cbn [bind].
    rewrite (forall_chars_get _ _ Hws _ _ Hget). apply IH. lia. }
  apply (lexer_returns_exactly source_code (S (length source_code))).
  apply Hloop. lia.
Qed.

Lemma whitespace_only_scans_to_nothing_witness :
  lexer_returns (String "009" (String "010" "  ")) [].
Proof.
  apply (proj2 (whitespace_only_scans_to_nothing
                  (String "009" (String "010" "  ")) eq_refl [])).
  reflexivity.
Defined.

(** ** Longest match for numbers *)

(** The lexeme [get_number] returns cannot be extended: the character
    after it, if there is one, is not a digit, and it is not a point
    either unless the lexeme already holds one. *)
Theorem get_number_is_maximal (source_code : string) (position : nat) (c : ascii) :
  let lexeme := fst (get_number source_code position) in
  let is_real := snd (get_number source_code position) in
  get (position + length lexeme) source_code = Some c ->
  isdigit c = false /\ (is_real = false -> c <> "."%char).
Proof.
  intros lexeme is_real. subst lexeme is_real.
  rewrite get_number_spec, <- get_drop.
  set (text := drop position source_code).
  destruct (number_at_cases text) as [(rest & Hdrop & ->)|(Hnodot & ->)];
    cbn [fst snd]; intros Hget.
  - split; [|discriminate].
    pose proof (take_while_split isdigit text) as Hsplit.
    rewrite Hdrop in Hsplit.
    set (digits := take_while isdigit text) in *.
    rewrite Hsplit, length_append, get_append_r in Hget.
    simpl in Hget. now apply take_while_maximal in Hget.
  - split; [now apply take_while_maximal in Hget|].
    intros _ ->.
    rewrite <- (Nat.add_0_r (length _)), <- get_drop in Hget.
    destruct (drop (length (take_while isdigit text)) text) as [|d rest] eqn:E;
      [discriminate|].
    injection Hget as ->. now apply (Hnodot rest).
Qed.

Lemma get_number_is_maximal_witness :
  isdigit "." = false /\ (true = false -> "."%char <> "."%char).
Proof.
  exact (get_number_is_maximal "x=3.14.15" 2 "."%char eq_refl).
Defined.

(** ** The body as two tests and a dispatch *)

Lemma lexer_body_dispatch (source_code : string) (position : nat)
    (tokens : list token) :
  lexer_body source_code (position, tokens)
  = (char <- getitem source_code position ;;
     if isspace char then Ok (position + 1, tokens)
     else
       opens_comment <-
         (if (char =? "[")%char
          then next <- getitem source_code (position + 1) ;;
               Ok (next =? "*")%char
          else Ok false) ;;
       dispatch source_code position tokens char opens_comment).
Proof. reflexivity. Qed.

(** ** The text before the cursor *)

Section Shift.

Variables prefix source_code : string.

Let shifted : string := prefix ++ source_code.

Lemma get_shift (k : nat) : get (length prefix + k) shifted = get k source_code.
Proof. apply get_append_r. Qed.

Lemma drop_shift (k : nat) : drop (length prefix + k) shifted = drop k source_code.
Proof. unfold shifted. induction prefix as [|a p IH]; simpl; auto. Qed.

Lemma substring_shift (n m : nat) :
  substring (length prefix + n) m shifted = substring n m source_code.
Proof.
  rewrite substring_drop, drop_shift. symmetry. apply substring_drop.
Qed.

Lemma index_shift (sub : string) (n : nat) :
  index (length prefix + n) sub shifted
  = option_map (Nat.add (length prefix)) (index n sub source_code).
Proof.
  unfold shifted. induction prefix as [|a p IH]; simpl.
  - now destruct (index n sub source_code).
  - rewrite IH. now destruct (index n sub source_code).
Qed.

Lemma length_shift : length shifted = length prefix + length source_code.
Proof. apply length_append. Qed.

Lemma handle_comment_shift (position : nat) :
  handle_comment shifted (length prefix + position)
  = (position' <- handle_comment source_code position ;;
     Ok (length prefix + position')).
Proof.
  unfold handle_comment, find. rewrite index_shift.
  destruct (index position "*]" source_code); cbn [option_map bind];
    [|reflexivity].
  now rewrite Nat.add_assoc.
Qed.

Lemma get_identifier_shift (position : nat) :
  get_identifier shifted (length prefix + position)
  = get_identifier source_code position.
Proof. now rewrite !get_identifier_spec, drop_shift. Qed.

Lemma get_number_shift (position : nat) :
  get_number shifted (length prefix + position)
  = get_number source_code position.
Proof. now rewrite !get_number_spec, drop_shift. Qed.

Lemma get_operator_shift (position : nat) :
  get_operator shifted (length prefix + position)
  = get_operator source_code position.
Proof.
  unfold get_operator, getitem. now rewrite substring_shift, get_shift.
Qed.

Lemma dispatch_shift (position : nat) (tokens : list token)
    (c : ascii) (opens : bool) :
  dispatch shifted (length prefix + position) tokens c opens
  = (st <- dispatch source_code position tokens c opens ;;
     Ok (length prefix + fst st, snd st)).
Proof.
  unfold dispatch.
  rewrite handle_comment_shift, get_identifier_shift, get_number_shift,
    get_operator_shift.
  destruct opens.
  { now destruct (handle_comment source_code position). }
  destruct (is_letter c).
  { cbv zeta. destruct (str_in _ keywords); cbn [bind fst snd];
      now rewrite Nat.add_assoc. }
  destruct (is_digit c).
  { destruct (get_number source_code position) as [lexeme [|]];
      cbn [bind fst snd]; now rewrite Nat.add_assoc. }
  destruct (starts_operator c).
  { destruct (get_operator source_code position); cbn [bind fst snd];
      [now rewrite Nat.add_assoc | reflexivity]. }
  destruct (str_in (str1 c) separators); cbn [bind fst snd];
    [now rewrite Nat.add_assoc | reflexivity].
Qed.

Lemma lexer_body_shift (position : nat) (tokens : list token) :
  lexer_body shifted (length prefix + position, tokens)
  = (st <- lexer_body source_code (position, tokens) ;;
     Ok (length prefix + fst st, snd st)).
Proof.
  rewrite !lexer_body_dispatch. unfold getitem.
  rewrite get_shift, <- (Nat.add_assoc _ position 1), get_shift.
  destruct (get position source_code) as [c|]; cbn [bind]; [|reflexivity].
  destruct (isspace c); [reflexivity|].
  destruct (c =? "[")%char; cbn [bind]; [|apply dispatch_shift].
  destruct (get (position + 1) source_code) as [next|]; cbn [bind];
    [apply dispatch_shift | reflexivity].
Qed.

Lemma lexer_loop_shift :
  forall fuel position tokens,
    lexer_loop fuel shifted (length prefix + position, tokens)
    = lexer_loop fuel source_code (position, tokens).
Proof.
  induction fuel as [|fuel IH]; intros position tokens; [reflexivity|].
  cbn [lexer_loop fst snd]. rewrite length_shift, lexer_body_shift.
  replace (length prefix + position <? length prefix + length source_code)%nat
    with (position <? length source_code)%nat
    by (destruct (Nat.ltb_spec position (length source_code));
        symmetry; [apply Nat.ltb_lt | apply Nat.ltb_ge]; lia).
  destruct (position <? length source_code)%nat; [|reflexivity].
  destruct (lexer_body source_code (position, tokens)) as [[p t]|e];
    cbn [bind fst snd]; [apply IH | reflexivity].
Qed.

End Shift.

(** What the loop does from a cursor position on depends only on the
    text from that position on: with any text put in front, and the
    cursor moved by its length, the loop ends in the same way with the
    same tokens. *)
Theorem text_before_cursor_is_irrelevant
    (prefix source_code : string) (fuel position : nat) (tokens : list token) :
  lexer_loop fuel (prefix ++ source_code) (length prefix + position, tokens)
  = lexer_loop fuel source_code (position, tokens).
Proof.
  revert position tokens.
  induction fuel as [|fuel IH]; intros position tokens; [reflexivity|].
  cbn [lexer_loop fst snd]. rewrite length_append, lexer_body_shift.
  replace (length prefix + position <? length prefix + length source_code)%nat
    with (position <? length source_code)%nat
    by (destruct (Nat.ltb_spec position (length source_code));
        symmetry; [apply Nat.ltb_lt | apply Nat.ltb_ge]; lia).
  destruct (position <? length source_code)%nat; [|reflexivity].
  destruct (lexer_body source_code (position, tokens)) as [[p t]|e];
    cbn [bind fst snd]; [apply IH | reflexivity].
Qed.

(** ** The tokens collected before a pass *)

Lemma dispatch_tokens (source_code : string) (position : nat)
    (before tokens : list token) (c : ascii) (opens : bool) :
  dispatch source_code position (before ++ tokens)%list c opens
  = (st <- dispatch source_code position tokens c opens ;;
     Ok (fst st, (before ++ snd st)%list)).
Proof.
  unfold dispatch. destruct opens.
  { now destruct (handle_comment source_code position). }
  destruct (is_letter c).
  { cbv zeta. destruct (str_in _ keywords); cbn [bind fst snd];
      now rewrite app_assoc. }
  destruct (is_digit c).
  { destruct (get_number source_code position) as [lexeme [|]];
      cbn [bind fst snd]; now rewrite app_assoc. }
  destruct (starts_operator c).
  { destruct (get_operator source_code position); cbn [bind fst snd];
      [now rewrite app_assoc | reflexivity]. }
  destruct (str_in (str1 c) separators); cbn [bind fst snd];
    [now rewrite app_assoc | reflexivity].
Qed.

Lemma lexer_body_tokens (source_code : string) (position : nat)
    (before tokens : list token) :
  lexer_body source_code (position, (before ++ tokens)%list)
  = (st <- lexer_body source_code (position, tokens) ;;
     Ok (fst st, (before ++ snd st)%list)).
Proof.
  rewrite !lexer_body_dispatch.
  destruct (getitem source_code position) as [c|]; cbn [bind]; [|reflexivity].
  destruct (isspace c); [reflexivity|].
  destruct (c =? "[")%char; cbn [bind]; [|apply dispatch_tokens].
  destruct (getitem source_code (position + 1)) as [next|]; cbn [bind];
    [apply dispatch_tokens | reflexivity].
Qed.

Lemma lexer_loop_tokens (source_code : string) (before : list token) :
  forall fuel position tokens,
    lexer_loop fuel source_code (position, (before ++ tokens)%list)
    = option_map (map_tokens (app before))
        (lexer_loop fuel source_code (position, tokens)).
Proof.
  induction fuel as [|fuel IH]; intros position tokens; [reflexivity|].
  cbn [lexer_loop fst snd]. rewrite lexer_body_tokens.
  destruct (position <? length source_code)%nat; [|reflexivity].
  destruct (lexer_body source_code (position, tokens)) as [[p t]|e];
    cbn [bind fst snd]; [apply IH | reflexivity].
Qed.

(** ** The text after a break character *)

Lemma substring_append_l (s t : string) :
  forall n m, n + m <= length s -> substring n m (s ++ t) = substring n m s.
Proof.
  induction s as [|a s IH]; intros [|n] [|m] H; simpl in *;
    try reflexivity; try lia.
  - now destruct t.
  - f_equal. apply (IH 0 m). lia.
  - apply IH. lia.
  - apply IH. lia.
Qed.

Lemma drop_append_l (s t : string) :
  forall n, n <= length s -> drop n (s ++ t) = drop n s ++ t.
Proof.
  induction s as [|a s IH]; intros [|n] H; simpl in *; try reflexivity;
    try lia.
  apply IH. lia.
Qed.

Lemma take_while_break (p : ascii -> bool) (s t : string) (c : ascii) :
  p c = false -> take_while p (s ++ String c t) = take_while p s.
Proof.
  intros Hc. induction s as [|a s IH]; simpl.
  - now rewrite Hc.
  - destruct (p a); [now rewrite IH | reflexivity].
Qed.

Lemma index_append_l (sub s t : string) (n e : nat) :
  sub <> "" ->
  index n sub s = Some e -> index n sub (s ++ t) = Some e.
Proof.
  intros Hsub He.
  pose proof (index_ge _ _ _ _ He) as Hge.
  pose proof (index_correct1 _ _ _ _ He) as Hat.
  pose proof (slice_in_range _ _ _ _ Hat Hsub) as Hin.
  assert (Hat' : substring e (length sub) (s ++ t) = sub)
    by now rewrite substring_append_l.
  destruct (index n sub (s ++ t)) as [e'|] eqn:He'.
  - f_equal.
    pose proof (index_ge _ _ _ _ He') as Hge'.
    destruct (Nat.lt_trichotomy e' e) as [Hlt|[Heq|Hgt]]; [|exact Heq|].
    + elim (index_correct2 _ _ _ _ He e' Hge' Hlt).
      rewrite <- (substring_append_l s t) by lia.
      now apply index_correct1 in He'.
    + now elim (index_correct2 _ _ _ _ He' e Hge Hgt).
  - now elim (index_correct3 _ e _ _ He' Hsub Hge).
Qed.

Lemma break_char_class (c : ascii) :
  break_char c = true ->
  ident_char c = false /\ isdigit c = false
  /\ (c =? ".")%char = false /\ (c =? "=")%char = false.
Proof. all_chars c. Qed.

Lemma space_is_break (c : ascii) : isspace c = true -> break_char c = true.
Proof. all_chars c. Qed.

Lemma no_operator_ends_with (ch c : ascii) :
  (c =? "=")%char = false ->
  str_in (String ch (String c "")) operators = false.
Proof.
  intros Hc. unfold operators. cbn [str_in String.eqb]. rewrite Hc.
  repeat match goal with
         | |- context [if ?b then _ else _] => destruct b
         end; reflexivity.
Qed.

Section Break.

Variables (source_code rest : string) (c : ascii).
Hypothesis Hbreak : break_char c = true.

Let joined : string := source_code ++ String c rest.

Lemma get_identifier_break (position : nat) :
  position <= length source_code ->
  get_identifier joined position = get_identifier source_code position.
Proof.
  intros Hle. destruct (break_char_class c Hbreak) as (Hid & _).
  rewrite !get_identifier_spec. unfold joined.
  rewrite drop_append_l by exact Hle. now apply take_while_break.
Qed.

Lemma number_at_break (s : string) :
  number_at (s ++ String c rest) = number_at s.
Proof.
  destruct (break_char_class c Hbreak) as (_ & Hd & Hdot & _).
  unfold number_at. rewrite (take_while_break isdigit _ _ _ Hd).
  rewrite drop_append_l by apply length_take_while.
  destruct (drop (length (take_while isdigit s)) s) as [|a u]; simpl.
  - destruct c as [[] [] [] [] [] [] [] []]; try reflexivity.
    discriminate Hdot.
  - destruct (Ascii.eqb_spec a "."%char) as [->|Hne].
    + now rewrite (take_while_break isdigit _ _ _ Hd).
    + destruct a as [[] [] [] [] [] [] [] []]; try reflexivity.
      now elim Hne.
Qed.

Lemma get_number_break (position : nat) :
  position <= length source_code ->
  get_number joined position = get_number source_code position.
Proof.
  intros Hle. rewrite !get_number_spec. unfold joined.
  rewrite drop_append_l by exact Hle. apply number_at_break.
Qed.

Lemma get_operator_break (position : nat) (ch : ascii) :
  get position source_code = Some ch ->
  get_operator joined position = get_operator source_code position.
Proof.
  intros Hget. destruct (break_char_class c Hbreak) as (_ & _ & _ & Heq).
  pose proof (get_some_lt _ _ _ Hget) as Hlt.
  unfold get_operator, getitem, joined.
  rewrite (get_append_l _ _ _ _ Hget), Hget. cbn [bind].
  rewrite (substring_drop (source_code ++ _)), (substring_drop source_code).
  rewrite drop_append_l by lia.
  rewrite (drop_get_some _ _ _ Hget).
  destruct (drop (position + 1) source_code) as [|d u].
  - replace (substring 0 2 (String ch "" ++ String c rest))
      with (String ch (String c ""))
      by (simpl; now destruct rest).
    rewrite (no_operator_ends_with ch c Heq).
    change (substring 0 2 (String ch "")) with (str1 ch).
    now destruct (str_in (str1 ch) operators).
  - replace (substring 0 2 (String ch (String d u) ++ String c rest))
      with (substring 0 2 (String ch (String d u)))
      by (simpl; now destruct u).
    reflexivity.
Qed.

Lemma handle_comment_break (position position' : nat) :
  handle_comment source_code position = Ok position' ->
  handle_comment joined position = Ok position'.
Proof.
  unfold handle_comment, find, joined. intros H.
  destruct (index position "*]" source_code) as [e|] eqn:E; [|discriminate].
  now rewrite (index_append_l "*]" _ _ _ _ ltac:(discriminate) E).
Qed.

Lemma dispatch_break (position : nat) (tokens : list token)
    (ch : ascii) (opens : bool) (st : state) :
  get position source_code = Some ch ->
  dispatch source_code position tokens ch opens = Ok st ->
  dispatch joined position tokens ch opens = Ok st.
Proof.
  intros Hget. pose proof (get_some_lt _ _ _ Hget) as Hlt.
  unfold dispatch.
  rewrite get_identifier_break, get_number_break by lia.
  rewrite (get_operator_break _ _ Hget).
  destruct opens; [|trivial].
  destruct (handle_comment source_code position) as [p|] eqn:E;
    [|discriminate].
  now rewrite (handle_comment_break _ _ E).
Qed.

(** A pass that returns on the text returns the same on the text
    followed by a break character and anything else. *)
Lemma lexer_body_break (position : nat) (tokens : list token) (st : state) :
  lexer_body source_code (position, tokens) = Ok st ->
  lexer_body joined (position, tokens) = Ok st.
Proof.
  rewrite !lexer_body_dispatch. unfold getitem.
  destruct (get position source_code) as [ch|] eqn:Hget; [|discriminate].
  unfold joined at 1. rewrite (get_append_l _ _ _ _ Hget). cbn [bind].
  destruct (isspace ch); [trivial|].
  destruct (ch =? "[")%char; cbn [bind]; [|now apply dispatch_break].
  destruct (get (position + 1) source_code) as [next|] eqn:Hnext;
    [|discriminate].
  unfold joined at 1. rewrite (get_append_l _ _ _ _ Hnext). cbn [bind].
  now apply dispatch_break.
Qed.

(** A run that returns on the text leads, on the longer text, to the
    break character with the same tokens. *)
Lemma lexer_loop_break :
  forall fuel position tokens out,
    position <= length source_code ->
    lexer_loop fuel source_code (position, tokens) = Some (Ok out) ->
    lexer_iter joined (position, tokens) (length source_code, out).
Proof.
  induction fuel as [|fuel IH]; intros position tokens out Hle H;
    [discriminate|].
  cbn [lexer_loop fst snd] in H.
  destruct (position <? length source_code)%nat eqn:Hlt.
  - apply Nat.ltb_lt in Hlt.
    destruct (lexer_body source_code (position, tokens))
      as [[position' tokens']|e] eqn:Hbody; [|discriminate].
    apply iter_next with (st' := (position', tokens')).
    + unfold joined. rewrite length_append. cbn [fst]. lia.
    + now apply lexer_body_break.
    + apply IH; [|exact H].
      destruct (get position source_code) as [ch|] eqn:Hget;
        [|apply get_none_ge in Hget; lia].
      destruct (lexer_body_pass _ _ _ _ _ _ Hget Hbody) as (em & _ & Hpass).
      exact (pass_in_range _ _ _ _ _ Hget Hpass).
  - apply Nat.ltb_ge in Hlt. injection H as <-.
    replace position with (length source_code) by lia. constructor.
Qed.

End Break.

(** ** Runs that emit nothing: whitespace and comments *)

Lemma body_space (source_code : string) (position : nat)
    (tokens : list token) (c : ascii) :
  get position source_code = Some c ->
  isspace c = true ->
  lexer_body source_code (position, tokens) = Ok (position + 1, tokens).
Proof.
  intros Hget Hsp. unfold lexer_body, getitem. rewrite Hget. cbn [bind].
  now rewrite Hsp.
Qed.

Lemma body_comment (source_code : string) (position : nat) (tokens : list token) :
  get position source_code = Some "["%char ->
  get (position + 1) source_code = Some "*"%char ->
  lexer_body source_code (position, tokens)
  = (position' <- handle_comment source_code position ;;
     Ok (position', tokens)).
Proof.
  intros Hget Hnext. unfold lexer_body, getitem. rewrite Hget, Hnext.
  reflexivity.
Qed.

Lemma handle_comment_append (source_code rest : string) (position position' : nat) :
  handle_comment source_code position = Ok position' ->
  handle_comment (source_code ++ rest) position = Ok position'.
Proof.
  unfold handle_comment, find. intros H.
  destruct (index position "*]" source_code) as [e|] eqn:E; [|discriminate].
  now rewrite (index_append_l "*]" _ _ _ _ ltac:(discriminate) E).
Qed.

(** The tokens a run returns extend the tokens it started with. *)
Lemma lexer_loop_extends (source_code : string) :
  forall fuel position tokens out,
    lexer_loop fuel source_code (position, tokens) = Some (Ok out) ->
    exists more, out = (tokens ++ more)%list.
Proof.
  induction fuel as [|fuel IH]; intros position tokens out H; [discriminate|].
  cbn [lexer_loop fst snd] in H.
  destruct (position <? length source_code)%nat.
  - destruct (lexer_body source_code (position, tokens))
      as [[position' tokens']|e] eqn:Hbody; [|discriminate].
    destruct (lexer_body_shape _ _ _ _ _ Hbody) as (emitted & -> & _).
    destruct (IH _ _ _ H) as [more ->].
    exists (emitted ++ more)%list. now rewrite app_assoc.
  - injection H as <-. exists []. now rewrite app_nil_r.
Qed.

Lemma unmoved_pass_hangs (source_code : string) (position : nat)
    (tokens tokens' : list token) :
  position < length source_code ->
  lexer_body source_code (position, tokens) = Ok (position, tokens') ->
  forall fuel tokens0, lexer_loop fuel source_code (position, tokens0) = None.
Proof.
  intros Hlt Hbody.
  destruct (lexer_body_shape _ _ _ _ _ Hbody) as (emitted & _ & Hany & _).
  apply stuck_position_hangs; [exact Hlt|].
  intros tokens0. eexists. apply Hany.
Qed.

(** A run that returns the tokens it started with went through
    whitespace and comments only; it goes the same way when more text
    follows. *)
Lemma silent_run_append (source_code rest : string) :
  forall fuel position tokens,
    position <= length source_code ->
    lexer_loop fuel source_code (position, tokens) = Some (Ok tokens) ->
    lexer_iter (source_code ++ rest) (position, tokens)
      (length source_code, tokens).
Proof.
  induction fuel as [|fuel IH]; intros position tokens Hle H; [discriminate|].
  pose proof H as Hrun.
  cbn [lexer_loop fst snd] in H.
  destruct (position <? length source_code)%nat eqn:Hlt.
  - apply Nat.ltb_lt in Hlt.
    destruct (lexer_body source_code (position, tokens))
      as [[position' tokens']|e] eqn:Hbody; [|discriminate].
    destruct (get position source_code) as [c|] eqn:Hget;
      [|apply get_none_ge in Hget; lia].
    destruct (lexer_body_pass _ _ _ _ _ _ Hget Hbody)
      as (emitted & -> & Hpass).
    destruct (lexer_loop_extends _ _ _ _ _ H) as [more Hmore].
    assert (emitted = []) as ->.
    { apply (f_equal (@List.length token)) in Hmore.
      rewrite !length_app in Hmore.
      destruct emitted; [reflexivity | simpl in Hmore; lia]. }
    rewrite app_nil_r in *.
    pose proof (pass_in_range _ _ _ _ _ Hget Hpass) as Hin.
    assert (Hjoined : position < length (source_code ++ rest))
      by (rewrite length_append; lia).
    inversion Hpass as [ Hsp | p Hc Hnext Hcomment | | | | | Hu Hb ]; subst.
    + apply iter_next with (st' := (position + 1, tokens));
        [exact Hjoined | | now apply IH].
      exact (body_space _ _ _ _ (get_append_l _ _ _ _ Hget) Hsp).
    + apply iter_next with (st' := (position', tokens));
        [exact Hjoined | | now apply IH].
      rewrite body_comment by now apply get_append_l.
      now rewrite (handle_comment_append _ _ _ _ Hcomment).
    + rewrite (unmoved_pass_hangs _ _ _ _ Hlt Hbody (S fuel) tokens) in Hrun.
      discriminate.
  - apply Nat.ltb_ge in Hlt. replace position with (length source_code) by lia.
    constructor.
Qed.

(** A non-empty text that scans to nothing starts with a break
    character. *)
Lemma silent_text_starts_with_break (gap : string) :
  lexer_returns gap [] -> gap <> "" ->
  exists c rest, gap = String c rest /\ break_char c = true.
Proof.
  intros [fuel H] Hne. destruct gap as [|c rest]; [contradiction|].
  exists c, rest. split; [reflexivity|].
  destruct fuel as [|fuel]; [discriminate|].
  pose proof H as Hrun. unfold lexer in H.
  cbn [lexer_loop fst snd length Nat.ltb Nat.leb] in H.
  destruct (lexer_body (String c rest) (0, [])) as [[p t]|e] eqn:Hbody;
    [|discriminate].
  destruct (lexer_body_pass (String c rest) 0 p [] t c eq_refl Hbody)
    as (emitted & -> & Hpass).
  destruct (lexer_loop_extends _ _ _ _ _ H) as [more Hmore].
  destruct emitted; [|discriminate].
  inversion Hpass as [ Hsp | p' Hc Hnext Hcomment | | | | | Hu Hb ]; subst.
  - now apply space_is_break.
  - reflexivity.
  - assert (Hlt : 0 < length (String c rest)) by (simpl; lia).
    unfold lexer in Hrun.
    rewrite (unmoved_pass_hangs _ _ _ _ Hlt Hbody (S fuel) []) in Hrun.
    discriminate.
Qed.

Lemma lexer_iter_shift (prefix source_code : string) (st st' : state) :
  lexer_iter source_code st st' ->
  lexer_iter (prefix ++ source_code)
    (length prefix + fst st, snd st) (length prefix + fst st', snd st').
Proof.
  induction 1 as [st | [p t] [p1 t1] st2 Hlt Hbody _ IH]; [constructor|].
  apply iter_next with (st' := (length prefix + p1, t1)); [| |exact IH].
  - rewrite length_append. cbn [fst] in *. lia.
  - cbn [fst snd]. now rewrite lexer_body_shift, Hbody.
Qed.

(** Across a gap that scans to nothing, the loop reaches the second
    text with the tokens of the first, and goes on as the scan of the
    second text does. *)
Lemma run_across_gap (source1 gap source2 : string) (tokens1 : list token) :
  lexer_returns source1 tokens1 ->
  lexer_returns gap [] ->
  gap <> "" ->
  exists position,
    lexer_iter (source1 ++ gap ++ source2) (0, []) (position, tokens1)
    /\ forall fuel,
         lexer_loop fuel (source1 ++ gap ++ source2) (position, tokens1)
         = option_map (map_tokens (app tokens1)) (lexer fuel source2).
Proof.
  intros [fuel1 H1] Hgap Hne.
  destruct (silent_text_starts_with_break gap Hgap Hne)
    as (c & gap' & -> & Hbreak).
  destruct Hgap as [fuelg Hg]. unfold lexer in H1, Hg.
  assert (Hiter1 : lexer_iter (source1 ++ String c gap' ++ source2)
                     (0, []) (length source1, tokens1)).
  { apply (lexer_loop_break source1 (gap' ++ source2) c Hbreak fuel1 0 []);
      [lia | exact H1]. }
  assert (Hg1 : lexer_loop fuelg (String c gap') (0, tokens1)
                = Some (Ok tokens1)).
  { pose proof (lexer_loop_tokens (String c gap') tokens1 fuelg 0 []) as Ht.
    rewrite app_nil_r, Hg in Ht. cbn in Ht. now rewrite app_nil_r in Ht. }
  pose proof (silent_run_append (String c gap') source2 fuelg 0 tokens1
                (Nat.le_0_l _) Hg1) as Hiter2.
  apply (lexer_iter_shift source1) in Hiter2. cbn [fst snd] in Hiter2.
  rewrite Nat.add_0_r in Hiter2.
  exists (length source1 + length (String c gap')).
  split; [exact (lexer_iter_trans _ _ _ _ Hiter1 Hiter2)|].
  intros fuel.
  rewrite <- append_assoc, <- length_append.
  rewrite <- (Nat.add_0_r (length (source1 ++ String c gap'))).
  rewrite lexer_loop_shift.
  rewrite <- (app_nil_r tokens1) at 1. apply lexer_loop_tokens.
Qed.

(** Two texts joined by a non-empty gap of whitespace and comments (any
    text that itself scans to no token): if the first text scans to
    [tokens1], the whole scans to [tokens1] followed by the tokens of
    the second text, and it raises or runs for ever exactly as the scan
    of the second text does. *)
Theorem scans_join_across_gap
    (source1 gap source2 : string) (tokens1 : list token) :
  lexer_returns source1 tokens1 ->
  lexer_returns gap [] ->
  gap <> "" ->
  (forall tokens2,
      lexer_returns source2 tokens2 ->
      lexer_returns (source1 ++ gap ++ source2) (tokens1 ++ tokens2)%list)
  /\ (forall e,
        lexer_raises source2 e ->
        lexer_raises (source1 ++ gap ++ source2) e)
  /\ (lexer_hangs source2 -> lexer_hangs (source1 ++ gap ++ source2)).
Proof.
  intros H1 Hgap Hne.
  destruct (run_across_gap source1 gap source2 tokens1 H1 Hgap Hne)
    as (position & Hiter & Hloop).
  split; [|split].
  - intros tokens2 [fuel2 H2].
    apply (lexer_iter_result _ _ _ Hiter fuel2). now rewrite Hloop, H2.
  - intros e [fuel2 H2].
    apply (lexer_iter_result _ _ _ Hiter fuel2). now rewrite Hloop, H2.
  - intros Hhang fuel. apply (lexer_iter_hangs _ _ _ Hiter).
    intros fuel'. now rewrite Hloop, (Hhang fuel').
Qed.

Lemma scans_join_across_gap_witness :
  lexer_returns ("x=1" ++ " [* one *] " ++ "y=2.5")
    ([("identifier", "x"); ("operator", "="); ("integer", "1")]
     ++ [("identifier", "y"); ("operator", "="); ("real", "2.5")])%list.
Proof.
  apply (proj1 (scans_join_across_gap "x=1" " [* one *] " "y=2.5"
                  [("identifier", "x"); ("operator", "="); ("integer", "1")]
                  ltac:(now exists 10) ltac:(now exists 10)
                  ltac:(discriminate))).
  now exists 10.
Defined.

(** ** Scanning a single lexeme *)

Lemma take_while_whole (p : ascii -> bool) (s : string) :
  forall_chars p s = true -> take_while p s = s.
Proof.
  induction s as [|a s IH]; simpl; [reflexivity|].
  intros H. apply andb_true_iff in H as [Ha Hs]. now rewrite Ha, IH.
Qed.

Lemma drop_whole (s : string) : drop (length s) s = "".
Proof. induction s as [|a s IH]; simpl; auto. Qed.

Lemma one_pass_scan (source_code : string) (t : token) :
  0 < length source_code ->
  lexer_body source_code (0, []) = Ok (length source_code, [t]) ->
  lexer_returns source_code [t].
Proof.
  intros Hlt Hbody. exists 2. unfold lexer. cbn [lexer_loop fst snd].
  apply Nat.ltb_lt in Hlt. rewrite Hlt, Hbody.
  now rewrite Nat.ltb_irrefl.
Qed.

Lemma listed_lexeme_scans (tag lexeme : string) (table : list string) :
  (forall l, In l table -> lexer 2 l = Some (Ok [(tag, l)])) ->
  str_in lexeme table = true ->
  lexer_returns lexeme [(tag, lexeme)].
Proof.
  intros Htable Hin. apply str_in_In in Hin. exists 2. now apply Htable.
Qed.

Lemma real_lexeme (lexeme : string) :
  real_shape lexeme = true ->
  number_at lexeme = (lexeme, true)
  /\ exists c, get 0 lexeme = Some c /\ is_digit c = true.
Proof.
  unfold real_shape. intros H. apply andb_true_iff in H as [Hne Hrest].
  pose proof (take_while_split isdigit lexeme) as Hsplit.
  destruct (number_at_cases lexeme) as [(rest & Hdrop & E)|(Hnodot & _)].
  - rewrite Hdrop in Hrest, Hsplit.
    rewrite (take_while_whole _ _ Hrest) in E. split.
    + rewrite E. f_equal. symmetry. exact Hsplit.
    + destruct lexeme as [|c l]; [discriminate|]. exists c.
      simpl in Hne |- *. split; [reflexivity|].
      unfold is_digit. destruct (isdigit c); [reflexivity | discriminate].
  - destruct (drop (length (take_while isdigit lexeme)) lexeme) as [|d u];
      [discriminate|].
    destruct (Ascii.eqb_spec d "."%char) as [->|Hd]; [now elim (Hnodot u)|].
    destruct d as [[] [] [] [] [] [] [] []]; try discriminate.
    now elim Hd.
Qed.

(** A token that fits its category is what the scan of its lexeme
    alone returns. *)
Lemma fitting_token_scans (t : token) :
  token_ok t = true -> lexer_returns (snd t) [t].
Proof.
  destruct t as [tag lexeme]. unfold token_ok. cbn [snd].
  destruct (String.eqb_spec tag "keyword") as [->|_].
  { apply listed_lexeme_scans. intros l Hl. simpl in Hl.
    repeat (destruct Hl as [<-|Hl]; [reflexivity|]). contradiction. }
  destruct (String.eqb_spec tag "identifier") as [->|_].
  { intros H. apply andb_true_iff in H as [H Hall].
    apply andb_true_iff in H as [Hk Hstart]. apply negb_true_iff in Hk.
    destruct lexeme as [|c l]; [discriminate|]. simpl in Hstart.
    apply one_pass_scan; [simpl; lia|].
    rewrite (body_letter (String c l) 0 [] c eq_refl Hstart).
    cbn [drop]. rewrite (take_while_whole _ _ Hall).
    unfold word_tag. now rewrite Hk. }
  destruct (String.eqb_spec tag "integer") as [->|_].
  { intros H. apply andb_true_iff in H as [Hstart Hall].
    destruct lexeme as [|c l]; [discriminate|]. simpl in Hstart.
    apply one_pass_scan; [simpl; lia|].
    pose proof (body_digit (String c l) 0 [] c eq_refl Hstart) as Hb.
    cbn [drop] in Hb. unfold number_at in Hb.
    rewrite (take_while_whole _ _ Hall), drop_whole in Hb. exact Hb. }
  destruct (String.eqb_spec tag "real") as [->|_].
  { intros H. destruct (real_lexeme _ H) as (Hn & c & Hget & Hd).
    apply one_pass_scan; [now apply get_some_lt in Hget|].
    pose proof (body_digit lexeme 0 [] c Hget Hd) as Hb.
    cbn [drop] in Hb.
    replace (drop 0 lexeme) with lexeme in Hb by now destruct lexeme.
    now rewrite Hn in Hb. }
  destruct (String.eqb_spec tag "operator") as [->|_].
  { apply listed_lexeme_scans. intros l Hl. simpl in Hl.
    repeat (destruct Hl as [<-|Hl]; [reflexivity|]). contradiction. }
  destruct (String.eqb_spec tag "separator") as [->|_]; [|discriminate].
  apply listed_lexeme_scans. intros l Hl. simpl in Hl.
  repeat (destruct Hl as [<-|Hl]; [reflexivity|]). contradiction.
Qed.

(** Round trip: for a list of tokens that fit their categories, as
    every list the scan returns does, the scan of their lexemes written
    out with a space after each returns that list. *)
Theorem respelled_tokens_scan_back (tokens : list token) :
  Forall (fun t => token_ok t = true) tokens ->
  lexer_returns (respell tokens) tokens.
Proof.
  induction 1 as [|t tokens Ht _ IH]; [now exists 1|].
  cbn [respell].
  destruct (run_across_gap (snd t) " " (respell tokens) [t])
    as (position & Hiter & Hloop).
  - now apply fitting_token_scans.
  - now exists 2.
  - discriminate.
  - destruct IH as [fuel Hfuel].
    apply (lexer_iter_result _ _ _ Hiter fuel). now rewrite Hloop, Hfuel.
Qed.

Lemma respelled_tokens_scan_back_witness :
  lexer_returns "while ( n1 != 0. ) "
    [("keyword", "while"); ("separator", "("); ("identifier", "n1");
     ("operator", "!="); ("real", "0."); ("separator", ")")].
Proof.
  apply (respelled_tokens_scan_back
           [("keyword", "while"); ("separator", "("); ("identifier", "n1");
            ("operator", "!="); ("real", "0."); ("separator", ")")]).
  repeat constructor.
Defined.

(** ** The size of what the scan returns *)

Lemma lexer_loop_size (source_code : string) :
  forall fuel position tokens out,
    lexer_loop fuel source_code (position, tokens) = Some (Ok out) ->
    position <= length source_code ->
    length (lexemes tokens) <= position ->
    length (lexemes out) <= length source_code.
Proof.
  induction fuel as [|fuel IH]; intros position tokens out H Hle Hsize;
    [discriminate|].
  cbn [lexer_loop fst snd] in H.
  destruct (position <? length source_code)%nat eqn:Hlt.
  - apply Nat.ltb_lt in Hlt.
    destruct (lexer_body source_code (position, tokens))
      as [[position' tokens']|e] eqn:Hbody; [|discriminate].
    destruct (get position source_code) as [c|] eqn:Hget;
      [|apply get_none_ge in Hget; lia].
    destruct (lexer_body_pass _ _ _ _ _ _ Hget Hbody) as (em & _ & Hpass).
    pose proof (pass_in_range _ _ _ _ _ Hget Hpass) as Hin.
    pose proof (lexer_body_monotone _ _ _ _ _ Hbody) as Hmono.
    apply (IH _ _ _ H Hin).
    destruct (lexer_body_shape _ _ _ _ _ Hbody)
      as (emitted & -> & _ & [->|(tag & lexeme & -> & ->)]).
    + rewrite app_nil_r. lia.
    + rewrite lexemes_snoc, length_append. cbn [snd]. lia.
  - injection H as <-. lia.
Qed.

Lemma count_le_lexemes (tokens : list token) :
  Forall nonempty_lexeme tokens ->
  List.length tokens <= length (lexemes tokens).
Proof.
  induction 1 as [|[tag lexeme] tokens Hne _ IH]; simpl; [lia|].
  rewrite length_append. unfold nonempty_lexeme in Hne. cbn [snd] in Hne.
  destruct lexeme; [contradiction | simpl; lia].
Qed.

(** What the scan returns is no bigger than the text: the lexemes
    together have at most as many characters as the text, and there
    are at most as many tokens as characters. *)
Theorem returned_tokens_are_bounded (source_code : string) (tokens : list token) :
  lexer_returns source_code tokens ->
  List.length tokens <= length (lexemes tokens)
  /\ length (lexemes tokens) <= length source_code.
Proof.
  intros Hret. split.
  - apply count_le_lexemes. exact (returned_lexemes_nonempty _ _ Hret).
  - destruct Hret as [fuel H].
    apply (lexer_loop_size _ _ _ _ _ H); simpl; lia.
Qed.

Lemma returned_tokens_are_bounded_witness :
  List.length [("identifier", "ab"); ("operator", "+"); ("integer", "12")]
  <= length (lexemes [("identifier", "ab"); ("operator", "+");
                      ("integer", "12")])
  /\ length (lexemes [("identifier", "ab"); ("operator", "+");
                      ("integer", "12")])
     <= length "ab [* sum *] + 12".
Proof.
  apply (returned_tokens_are_bounded "ab [* sum *] + 12").
  now exists 20.
Defined.

(** ** The helper functions outside the text and off their characters *)

Lemma take_while_empty (p : ascii -> bool) (s : string) :
  take_while p s = "" <-> forall c, get 0 s = Some c -> p c = false.
Proof.
  destruct s as [|a s]; simpl.
  - split; [discriminate | reflexivity].
  - destruct (p a) eqn:E; split; try discriminate; try reflexivity.
    + intros H. specialize (H a eq_refl). congruence.
    + now intros _ c [= <-].
Qed.

(** [get_identifier] never raises.  It returns the empty string
    exactly when the position is outside the text or holds a character
    that is neither alphanumeric nor an underscore; otherwise the
    lexeme begins with the character at the position. *)
Theorem get_identifier_empty_iff (source_code : string) (position : nat) :
  (get_identifier source_code position = ""
   <-> forall c, get position source_code = Some c -> ident_char c = false)
  /\ (length source_code <= position ->
      get_identifier source_code position = "")
  /\ (forall c, get position source_code = Some c -> ident_char c = true ->
                get 0 (get_identifier source_code position) = Some c).
Proof.
  rewrite get_identifier_spec.
  assert (Hget0 : get 0 (drop position source_code) = get position source_code)
    by now rewrite get_drop, Nat.add_0_r.
  split; [|split].
  - rewrite take_while_empty. now rewrite Hget0.
  - intros Hout. apply take_while_empty. rewrite Hget0.
    now rewrite (get_ge_none _ _ Hout).
  - intros c Hc Hid. rewrite (drop_get_some _ _ _ Hc). simpl.
    now rewrite Hid.
Qed.

Lemma get_identifier_empty_iff_witness :
  get_identifier "ab" 2 = "".
Proof.
  apply (proj1 (proj2 (get_identifier_empty_iff "ab" 2))). simpl. lia.
Defined.

(** [get_number] never raises.  It returns the empty lexeme, flagged as
    not real, exactly when the position is outside the text or holds a
    character that is neither a digit nor a point; called on a point it
    returns a real lexeme that begins with the point. *)
Theorem get_number_empty_iff (source_code : string) (position : nat) :
  (get_number source_code position = ("", false)
   <-> forall c, get position source_code = Some c ->
                 isdigit c = false /\ c <> "."%char)
  /\ (get position source_code = Some "."%char ->
      get 0 (fst (get_number source_code position)) = Some "."%char
      /\ snd (get_number source_code position) = true).
Proof.
  rewrite get_number_spec.
  assert (Hget0 : get 0 (drop position source_code) = get position source_code)
    by now rewrite get_drop, Nat.add_0_r.
  set (text := drop position source_code) in *.
  split.
  - destruct (number_at_cases text) as [(rest & Hdrop & ->)|(Hnodot & ->)].
    + split.
      { intros H. discriminate H. }
      intros H. exfalso. rewrite <- Hget0 in H.
      destruct (take_while isdigit text) as [|d u] eqn:E.
      * simpl in Hdrop. destruct text as [|a v]; [discriminate|].
        injection Hdrop as -> _. now destruct (H _ eq_refl).
      * destruct text as [|a v]; [discriminate|].
        destruct (H a eq_refl) as [Ha _].
        simpl in E. rewrite Ha in E. discriminate.
    + split.
      { intros [= H]. intros c Hc. rewrite <- Hget0 in Hc.
        split; [now apply (proj1 (take_while_empty _ _) H)|].
        intros ->. rewrite H in Hnodot. simpl in Hnodot.
        destruct text as [|a v]; [discriminate|].
        injection Hc as ->. now elim (Hnodot v). }
      intros H. f_equal. apply take_while_empty.
      intros c Hc. rewrite Hget0 in Hc. now destruct (H c Hc).
  - intros Hdot. rewrite <- Hget0 in Hdot.
    destruct text as [|a v]; [discriminate|]. injection Hdot as ->.
    split; reflexivity.
Qed.

Lemma get_number_empty_iff_witness :
  get 0 (fst (get_number "x.5" 1)) = Some "."%char
  /\ snd (get_number "x.5" 1) = true.
Proof.
  exact (proj2 (get_number_empty_iff "x.5" 1) eq_refl).
Defined.

(** ** The order of the tests in the loop *)

(** The tests of the loop body are mutually exclusive: a character is
    at most one of whitespace, a letter, a digit, the first character
    of an operator, a separator, and the bracket that may open a
    comment. *)
Theorem dispatch_classes_are_disjoint (c : ascii) :
  Nat.b2n (isspace c) + Nat.b2n (is_letter c) + Nat.b2n (is_digit c)
  + Nat.b2n (starts_operator c) + Nat.b2n (str_in (str1 c) separators)
  + Nat.b2n (c =? "[")%char <= 1.
Proof.
  destruct c as [[] [] [] [] [] [] [] []]; vm_compute;
    repeat constructor.
Qed.

(** ** The printed lines *)

Lemma append_cancel_l (s a b : string) : s ++ a = s ++ b -> a = b.
Proof.
  induction s as [|c s IH]; simpl; [trivial|]. intros [= H]. now apply IH.
Qed.

Lemma token_ok_tag (t : token) :
  token_ok t = true ->
  In (fst t) ["keyword"; "identifier"; "integer"; "real"; "operator";
              "separator"].
Proof.
  destruct t as [tag lexeme]. unfold token_ok. cbn [fst In].
  repeat match goal with
         | |- context [if (tag =? ?name) then _ else _] =>
             destruct (String.eqb_spec tag name) as [->|_]; [tauto|]
         end.
  discriminate.
Qed.

Lemma no_space_keyword (lexeme : string) :
  str_in lexeme keywords = true -> no_space lexeme.
Proof.
  intros H. apply str_in_In in H. simpl in H.
  assert (Hall : forall_chars (fun c => negb (isspace c)) lexeme = true)
    by (repeat (destruct H as [<-|H]; [reflexivity|]); contradiction).
  intros k c Hget. apply (forall_chars_get _ _ Hall) in Hget.
  now apply negb_true_iff in Hget.
Qed.

Lemma token_ok_no_space (t : token) : token_ok t = true -> no_space (snd t).
Proof.
  destruct t as [tag lexeme]. unfold token_ok. cbn [snd]. intros Hok.
  repeat match type of Hok with
         | (if (tag =? ?name) then _ else _) = true =>
             destruct (String.eqb_spec tag name) as [->|_]
         end; try discriminate.
  - now apply no_space_keyword.
  - apply andb_true_iff in Hok as [_ Hall]. intros k c Hget.
    apply ident_char_no_space. exact (forall_chars_get _ _ Hall _ _ Hget).
  - apply andb_true_iff in Hok as [_ Hall]. intros k c Hget.
    apply digit_no_space. exact (forall_chars_get _ _ Hall _ _ Hget).
  - destruct (real_lexeme _ Hok) as (Hn & _).
    pose proof (no_space_number lexeme) as Hns. now rewrite Hn in Hns.
  - now apply no_space_operator.
  - now apply no_space_separator.
Qed.

Lemma forall_chars_append (p : ascii -> bool) (s t : string) :
  forall_chars p (s ++ t) = forall_chars p s && forall_chars p t.
Proof.
  induction s as [|a s IH]; simpl; [reflexivity|].
  now rewrite IH, andb_assoc.
Qed.

Lemma get_forall_chars (p : ascii -> bool) (s : string) :
  (forall k c, get k s = Some c -> p c = true) -> forall_chars p s = true.
Proof.
  induction s as [|a s IH]; intros H; simpl; [reflexivity|].
  rewrite (H 0 a eq_refl). apply IH. intros k c Hk. exact (H (S k) c Hk).
Qed.

Lemma not_space_not_newline (c : ascii) :
  isspace c = false -> negb (c =? "010")%char = true.
Proof. all_chars c. Qed.

(** For tokens that fit their categories, as those the scan returns
    do, the printed line determines the token, and it holds no line
    break: the output has exactly one line per token and can be read
    back. *)
Theorem printed_line_determines_token (t1 t2 : token) :
  token_ok t1 = true ->
  token_ok t2 = true ->
  (format_token t1 = format_token t2 -> t1 = t2)
  /\ (forall k, get k (format_token t1) <> Some "010"%char).
Proof.
  intros Hok1 Hok2. split.
  - pose proof (token_ok_tag _ Hok1) as Htag1.
    pose proof (token_ok_tag _ Hok2) as Htag2.
    destruct t1 as [tag1 lexeme1], t2 as [tag2 lexeme2].
    unfold format_token. cbn [fst snd In] in *. intros H.
    apply append_cancel_l in H.
    repeat (destruct Htag1 as [<-|Htag1]);
      repeat (destruct Htag2 as [<-|Htag2]);
      try contradiction; try discriminate H;
      injection H as ->; reflexivity.
  - assert (Hall : forall_chars (fun c => negb (c =? "010")%char)
                     (format_token t1) = true).
    { pose proof (token_ok_tag _ Hok1) as Htag.
      pose proof (token_ok_no_space _ Hok1) as Hns.
      destruct t1 as [tag lexeme]. unfold format_token.
      cbn [fst snd In] in *.
      rewrite !forall_chars_append.
      apply andb_true_iff; split; [reflexivity|].
      apply andb_true_iff; split;
        [repeat (destruct Htag as [<-|Htag]; [reflexivity|]); contradiction|].
      apply andb_true_iff; split; [reflexivity|].
      apply get_forall_chars. intros k c Hget.
      apply Hns in Hget. now apply not_space_not_newline. }
    intros k Hget. apply (forall_chars_get _ _ Hall) in Hget.
    discriminate Hget.
Qed.

Lemma printed_line_determines_token_witness :
  (format_token ("real", "1.5") = format_token ("real", "1.5") ->
   ("real", "1.5") = ("real", "1.5"))
  /\ (forall k, get k (format_token ("real", "1.5")) <> Some "010"%char).
Proof.
  exact (printed_line_determines_token ("real", "1.5") ("real", "1.5")
           eq_refl eq_refl).
Defined.
